(** * Section garbage collection of the linker (gc_sections.cc)

    A shallow embedding of the mark-sweep collector that implements
    -gc-sections, and the properties of it that the specification states.

    Modelling decisions.
    - An [InputSection *] is an address: a natural number indexing the table
      [isecs] of the context; the null pointer is [None].  A [SectionFragment *]
      indexes [frags] in the same way, and an [ObjectFile *] indexes [objs].
      Symbols are never written to by the collector and never compared by
      address, so a [Symbol *] or [Symbol &] is the symbol record itself.
    - The collector writes three flags only.  They live in [State], apart
      from the records they belong to: [is_alive] and [is_visited] are the
      sets of the sections whose flag is true, [frag_is_alive] the set of the
      fragments whose flag is true.  [State] also holds the counter
      "garbage_sections", the lines written to [SyncOut], and a ghost log of
      the sections [mark_section] returned true for.
    - [tbb::parallel_for_each] is run as the sequential loop over its range
      and [tbb::parallel_do] as a work list served in order, the feeder
      appending to it: the schedule of a single worker.
    - A dereference the driver never produces (an address outside its table,
      a symbol index outside the symbol table) is undefined in C++; the model
      makes it inert: the iteration that would dereference is skipped.
    - The assertion of line 31 and the timers are not modelled.

    The file has the embedding first, then the vocabulary of the statements
    and of their proofs, then the theorems. *)

From Stdlib Require Import ZArith String.
From stdpp Require Import base list gmap sets.

#[local] Set Warnings "-clear-no-such-hyp,-level-tolerance,-notation-for-abbreviation".

Local Open Scope Z_scope.

(** ** Constants of elf.h *)

(** Modelled from the spec: the ELF constants come from elf.h, which is not
    part of the sources at hand; the values are those of the ELF format. *)
Definition SHF_ALLOC : Z := 2.
Definition SHT_NOTE : Z := 7.
Definition SHT_INIT_ARRAY : Z := 14.
Definition SHT_FINI_ARRAY : Z := 15.
Definition SHT_PREINIT_ARRAY : Z := 16.

(** ** Data model (the parts of mold.h the collector reads) *)

Abbreviation isec_ptr := nat.
Abbreviation frag_ptr := nat.

Record ElfShdr := {
  sh_type : Z;
  sh_flags : Z;
}.

Record Symbol := {
  sym_file : nat;
  is_exported : bool;
  sym_frag : option frag_ptr;
  input_section : option isec_ptr;
}.

Record EhReloc := { eh_sym : Symbol }.

Record FdeRecord := { fde_rels : list EhReloc }.

Record CieRecord := { cie_rels : list EhReloc }.

Record ElfRela := { r_sym : nat }.

Record SectionFragmentRef := { ref_frag : frag_ptr }.

Record OutputSection := { out_shdr : ElfShdr }.

Record SectionFragment := { output_section : OutputSection }.

Record InputSection := {
  file : nat;
  shdr : ElfShdr;
  name : string;
  rels : list ElfRela;
  rel_fragments : list SectionFragmentRef;
  fdes : list FdeRecord;
}.

Record ObjectFile := {
  sections : list (option isec_ptr);
  symbols : list Symbol;
  fragments : list frag_ptr;
  cies : list CieRecord;
}.

Record Args := {
  entry : string;
  undefined : list string;
  print_gc_sections : bool;
}.

Record Context := {
  objs : list ObjectFile;
  isecs : list InputSection;
  frags : list SectionFragment;
  symbol_map : list (string * Symbol);
  arg : Args;
}.

(** A line of the synchronized output: the operands of
    [SyncOut(ctx) << "removing unused section " << *isec]. *)
Inductive OutputLine :=
| RemovingUnusedSection (isec : isec_ptr).

Record State := {
  is_alive : gset isec_ptr;
  is_visited : gset isec_ptr;
  frag_is_alive : gset frag_ptr;
  counter : Z;
  sync_out : list OutputLine;
  (* ghost: the references [mark_section] has accepted, oldest first; no
     function reads it *)
  accepted : list isec_ptr;
}.

(** The feeder of [tbb::parallel_do]: the sections added, oldest first. *)
Abbreviation Feeder := (list isec_ptr).

(** ** Field updates *)

Definition set_is_alive (a : gset isec_ptr) (st : State) : State :=
  {| is_alive := a; is_visited := is_visited st;
     frag_is_alive := frag_is_alive st; counter := counter st;
     sync_out := sync_out st; accepted := accepted st |}.

Definition set_is_visited (v : gset isec_ptr) (st : State) : State :=
  {| is_alive := is_alive st; is_visited := v;
     frag_is_alive := frag_is_alive st; counter := counter st;
     sync_out := sync_out st; accepted := accepted st |}.

(** [frag->is_alive = true] *)
Definition frag_set_alive (f : frag_ptr) (st : State) : State :=
  {| is_alive := is_alive st; is_visited := is_visited st;
     frag_is_alive := {[f]} ∪ frag_is_alive st; counter := counter st;
     sync_out := sync_out st; accepted := accepted st |}.

(** [isec->is_visited = true] *)
Definition visited_store_true (isec : isec_ptr) (st : State) : State :=
  set_is_visited ({[isec]} ∪ is_visited st) st.

(** [isec->is_visited.exchange(true)]: the previous value, and the store. *)
Definition visited_exchange_true (isec : isec_ptr) (st : State) : bool * State :=
  (bool_decide (isec ∈ is_visited st), visited_store_true isec st).

Definition log_accepted (isec : isec_ptr) (st : State) : State :=
  {| is_alive := is_alive st; is_visited := is_visited st;
     frag_is_alive := frag_is_alive st; counter := counter st;
     sync_out := sync_out st; accepted := accepted st ++ [isec] |}.

Definition counter_incr (st : State) : State :=
  {| is_alive := is_alive st; is_visited := is_visited st;
     frag_is_alive := frag_is_alive st; counter := counter st + 1;
     sync_out := sync_out st; accepted := accepted st |}.

Definition sync_out_line (l : OutputLine) (st : State) : State :=
  {| is_alive := is_alive st; is_visited := is_visited st;
     frag_is_alive := frag_is_alive st; counter := counter st;
     sync_out := sync_out st ++ [l]; accepted := accepted st |}.

(** Modelled from the spec: [InputSection::kill] is defined in mold.h, which
    is not part of the sources at hand; the spec has it transition [is_alive]
    to false. *)
Definition kill (isec : isec_ptr) (st : State) : State :=
  set_is_alive (is_alive st ∖ {[isec]}) st.

(** ** Dereferences *)

Definition get_isec (ctx : Context) (isec : isec_ptr) : option InputSection :=
  isecs ctx !! isec.

Definition get_frag (ctx : Context) (frag : frag_ptr) : option SectionFragment :=
  frags ctx !! frag.

(** [*isec->file.symbols[r_sym]] *)
Definition get_symbol (ctx : Context) (s : InputSection) (r : nat) : option Symbol :=
  match objs ctx !! file s with
  | Some f => symbols f !! r
  | None => None
  end.

Definition empty_symbol : Symbol :=
  {| sym_file := 0%nat; is_exported := false; sym_frag := None;
     input_section := None |}.

(** Modelled from the spec: [Symbol::intern] is defined in mold.h, which is
    not part of the sources at hand; the spec has it look the name up in the
    global symbol table and return an empty-section symbol if the name is
    absent. *)
Fixpoint intern_in (m : list (string * Symbol)) (name : string) : Symbol :=
  match m with
  | [] => empty_symbol
  | (n, sym) :: m' => if String.eqb n name then sym else intern_in m' name
  end.

Definition intern (ctx : Context) (name : string) : Symbol :=
  intern_in (symbol_map ctx) name.

(** [!(flags & SHF_ALLOC)] *)
Definition lacks_alloc (h : ElfShdr) : bool :=
  Z.land (sh_flags h) SHF_ALLOC =? 0.

(** ** The collector *)

Definition is_init_fini (isec : InputSection) : bool :=
  (sh_type (shdr isec) =? SHT_INIT_ARRAY) ||
  (sh_type (shdr isec) =? SHT_FINI_ARRAY) ||
  (sh_type (shdr isec) =? SHT_PREINIT_ARRAY) ||
  String.prefix ".ctors" (name isec) ||
  String.prefix ".dtors" (name isec) ||
  String.prefix ".init" (name isec) ||
  String.prefix ".fini" (name isec).

Definition mark_section (isec : option isec_ptr) (st : State) : bool * State :=
  match isec with
  | None => (false, st)
  | Some p =>
      if bool_decide (p ∈ is_alive st) then
        let '(old, st') := visited_exchange_true p st in
        if old then (false, st') else (true, log_accepted p st')
      else (false, st)
  end.

(** The state a visit runs in: the flags and the feeder. *)
Abbreviation Work := (State * Feeder)%type.

Definition feeder_add (isec : isec_ptr) (w : Work) : Work :=
  (w.1, w.2 ++ [isec]).

(** Line 36-37 of gc_sections.cc. *)
Definition visit_rel_fragments (s : InputSection) (st : State) : State :=
  foldl (fun st ref => frag_set_alive (ref_frag ref) st) st (rel_fragments s).

(** The body of the inner loop of lines 43-46. *)
Definition visit_eh_reloc (w : Work) (rel : EhReloc) : Work :=
  match input_section (eh_sym rel) with
  | Some isec =>
      let '(b, st') := mark_section (Some isec) w.1 in
      if b then feeder_add isec (st', w.2) else (st', w.2)
  | None => w
  end.

(** Lines 43-46 for one FDE; [subspan(1)] is the tail. *)
Definition visit_fde (w : Work) (fde : FdeRecord) : Work :=
  foldl visit_eh_reloc w (tail (fde_rels fde)).

(** Lines 42-46. *)
Definition visit_fdes (s : InputSection) (w : Work) : Work :=
  foldl visit_fde w (fdes s).

(** The body of the loop of lines 48-67; [descend] is what line 63-66 does
    with an accepted section. *)
Definition visit_rel (ctx : Context) (descend : isec_ptr → Work → Work)
    (s : InputSection) (w : Work) (rel : ElfRela) : Work :=
  match get_symbol ctx s (r_sym rel) with
  | None => w
  | Some sym =>
      match sym_frag sym with
      | Some f => (frag_set_alive f w.1, w.2)
      | None =>
          let '(b, st') := mark_section (input_section sym) w.1 in
          if negb b then (st', w.2)
          else match input_section sym with
               | Some isec => descend isec (st', w.2)
               | None => (st', w.2)
               end
      end
  end.

(** [visit], by recursion on the number [n] of levels that may still be
    entered in line: with the depth bound [b] of line 63 and the argument
    [depth], [n = b - depth]; [depth < b] reads [n ≠ 0], and [depth + 1]
    takes [n] to its predecessor. *)
Fixpoint visit_levels (ctx : Context) (n : nat) (isec : isec_ptr) (w : Work)
    : Work :=
  match get_isec ctx isec with
  | None => w
  | Some s =>
      let w1 := (visit_rel_fragments s w.1, w.2) in
      let w2 := visit_fdes s w1 in
      foldl (visit_rel ctx
               (match n with
                | O => feeder_add
                | S m => visit_levels ctx m
                end) s) w2 (rels s)
  end.

(** [visit] with the depth bound as a parameter. *)
Definition visit_bound (bound : Z) (ctx : Context) (isec : isec_ptr)
    (w : Work) (depth : Z) : Work :=
  visit_levels ctx (Z.to_nat (bound - depth)) isec w.

Definition visit (ctx : Context) (isec : isec_ptr) (w : Work) (depth : Z)
    : Work :=
  visit_bound 3 ctx isec w depth.

(** The state of [collect_root_set]: the flags and the vector [roots]. *)
Abbreviation Roots := (State * list isec_ptr)%type.

(** The lambda [enqueue_section], lines 76-79. *)
Definition enqueue_section (isec : option isec_ptr) (r : Roots) : Roots :=
  let '(b, st') := mark_section isec r.1 in
  if b then
    match isec with
    | Some p => (st', r.2 ++ [p])
    | None => (st', r.2)
    end
  else (st', r.2).

(** The lambda [enqueue_symbol], lines 81-88. *)
Definition enqueue_symbol (sym : option Symbol) (r : Roots) : Roots :=
  match sym with
  | Some sym =>
      match sym_frag sym with
      | Some f => (frag_set_alive f r.1, r.2)
      | None => enqueue_section (input_section sym) r
      end
  | None => r
  end.

(** The body of the loop of lines 92-105. *)
Definition root_section (ctx : Context) (r : Roots) (isec : option isec_ptr)
    : Roots :=
  match isec with
  | None => r
  | Some p =>
      match get_isec ctx p with
      | None => r
      | Some s =>
          let r1 :=
            if lacks_alloc (shdr s) then (visited_store_true p r.1, r.2)
            else r in
          if is_init_fini s || (sh_type (shdr s) =? SHT_NOTE)
          then enqueue_section (Some p) r1
          else r1
      end
  end.

(** Lines 91-106. *)
Definition root_sections (ctx : Context) (r : Roots) : Roots :=
  foldl (fun r f => foldl (root_section ctx) r (sections f)) r (objs ctx).

(** The body of the loop of lines 110-112; [fi] is the address of the file
    the loop runs in. *)
Definition root_exported (fi : nat) (r : Roots) (sym : Symbol) : Roots :=
  if (sym_file sym =? fi)%nat && is_exported sym
  then enqueue_symbol (Some sym) r
  else r.

(** Lines 109-113. *)
Definition root_exports (ctx : Context) (r : Roots) : Roots :=
  foldl (fun r (pf : nat * ObjectFile) =>
           foldl (root_exported pf.1) r (symbols pf.2))
        r (imap pair (objs ctx)).

(** Lines 116-119. *)
Definition root_named (ctx : Context) (r : Roots) : Roots :=
  foldl (fun r name => enqueue_symbol (Some (intern ctx name)) r)
        (enqueue_symbol (Some (intern ctx (entry (arg ctx)))) r)
        (undefined (arg ctx)).

(** Lines 124-128. *)
Definition root_cies (ctx : Context) (r : Roots) : Roots :=
  foldl (fun r f =>
           foldl (fun r cie =>
                    foldl (fun r rel =>
                             enqueue_section (input_section (eh_sym rel)) r)
                          r (cie_rels cie))
                 r (cies f))
        r (objs ctx).

Definition collect_root_set (ctx : Context) (st : State) : Roots :=
  root_cies ctx (root_named ctx (root_exports ctx (root_sections ctx (st, [])))).

(** [tbb::parallel_do] over the work list: the head is visited at depth 0
    with a feeder of its own, and what the feeder received joins the list.
    [fuel] bounds the number of visits. *)
Fixpoint mark_loop (ctx : Context) (bound : Z) (fuel : nat)
    (queue : list isec_ptr) (st : State) : option State :=
  match queue with
  | [] => Some st
  | isec :: rest =>
      match fuel with
      | O => None
      | S fuel' =>
          let '(st', added) := visit_bound bound ctx isec (st, []) 0 in
          mark_loop ctx bound fuel' (rest ++ added) st'
      end
  end.

(** Every visit but those of the roots is the visit of a section that was
    alive and not visited before: so many visits are enough. *)
Definition mark_fuel (roots : list isec_ptr) (st : State) : nat :=
  (length roots + size (is_alive st ∖ is_visited st))%nat.

Definition mark_bound (bound : Z) (ctx : Context) (roots : list isec_ptr)
    (st : State) : option State :=
  mark_loop ctx bound (mark_fuel roots st) roots st.

Definition mark (ctx : Context) (roots : list isec_ptr) (st : State)
    : option State :=
  mark_bound 3 ctx roots st.

(** The body of the loop of lines 150-159. *)
Definition sweep_section (ctx : Context) (st : State)
    (isec : option isec_ptr) : State :=
  match isec with
  | None => st
  | Some p =>
      if bool_decide (p ∈ is_alive st) && negb (bool_decide (p ∈ is_visited st))
      then
        let st1 :=
          if print_gc_sections (arg ctx)
          then sync_out_line (RemovingUnusedSection p) st
          else st in
        counter_incr (kill p st1)
      else st
  end.

Definition sweep (ctx : Context) (st : State) : State :=
  foldl (fun st f => foldl (sweep_section ctx) st (sections f)) st (objs ctx).

(** The body of the loop of lines 170-172. *)
Definition mark_nonalloc_fragment (ctx : Context) (st : State)
    (frag : frag_ptr) : State :=
  match get_frag ctx frag with
  | None => st
  | Some fr =>
      if lacks_alloc (out_shdr (output_section fr))
      then frag_set_alive frag st
      else st
  end.

Definition mark_nonalloc_fragments (ctx : Context) (st : State) : State :=
  foldl (fun st f => foldl (mark_nonalloc_fragment ctx) st (fragments f))
        st (objs ctx).

(** [gc_sections] with the depth bound of [visit] as a parameter. *)
Definition gc_sections_bound (bound : Z) (ctx : Context) (st : State)
    : option State :=
  let st0 := mark_nonalloc_fragments ctx st in
  let '(st1, roots) := collect_root_set ctx st0 in
  match mark_bound bound ctx roots st1 with
  | Some st2 => Some (sweep ctx st2)
  | None => None
  end.

Definition gc_sections (ctx : Context) (st : State) : option State :=
  gc_sections_bound 3 ctx st.

(** ** The section graph *)

(** Every slot of every file, in the order the loops over the files meet
    them. *)
Definition listed_slots (ctx : Context) : list (option isec_ptr) :=
  objs ctx ≫= sections.

(** [p] is a section of some file. *)
Definition listed (ctx : Context) (p : isec_ptr) : Prop :=
  Some p ∈ listed_slots ctx.

(** The flags of [p] lack ALLOC. *)
Definition nonalloc (ctx : Context) (p : isec_ptr) : Prop :=
  ∃ s, get_isec ctx p = Some s ∧ lacks_alloc (shdr s) = true.

(** FDE edges: the sections the relocations [rels[1..]] of the FDEs refer
    to. *)
Definition fde_targets (s : InputSection) : list isec_ptr :=
  fdes s ≫= (fun fde =>
    omap (fun rel => input_section (eh_sym rel)) (tail (fde_rels fde))).

(** Relocation edges to sections: the sections of the symbols without a
    fragment. *)
Definition rel_targets (ctx : Context) (s : InputSection) : list isec_ptr :=
  omap (fun rel =>
          sym ← get_symbol ctx s (r_sym rel);
          match sym_frag sym with
          | Some _ => None
          | None => input_section sym
          end) (rels s).

(** Relocation edges to fragments. *)
Definition rel_frag_targets (ctx : Context) (s : InputSection)
    : list frag_ptr :=
  omap (fun rel => get_symbol ctx s (r_sym rel) ≫= sym_frag) (rels s).

(** The sections one edge away from [p]. *)
Definition succs (ctx : Context) (p : isec_ptr) : list isec_ptr :=
  match get_isec ctx p with
  | Some s => fde_targets s ++ rel_targets ctx s
  | None => []
  end.

(** The fragments one edge away from [p]. *)
Definition frag_succs (ctx : Context) (p : isec_ptr) : list frag_ptr :=
  match get_isec ctx p with
  | Some s => (ref_frag <$> rel_fragments s) ++ rel_frag_targets ctx s
  | None => []
  end.

(** [p] is reached from one of [roots] along edges, every section on the way
    (the root and [p] too) satisfying [ok]. *)
Inductive reachable (ctx : Context) (ok : isec_ptr → Prop)
    (roots : list isec_ptr) : isec_ptr → Prop :=
| reachable_root r :
    r ∈ roots → ok r → reachable ctx ok roots r
| reachable_edge a b :
    reachable ctx ok roots a → b ∈ succs ctx a → ok b →
    reachable ctx ok roots b.

(** * Vocabulary of the statements and of the proofs *)

(** ** The work of the phases before the sweeper *)

(** [mext st st']: from [st] to [st'] no section changed [is_alive], the
    visited sections and the alive fragments only grew, nothing was counted
    or printed, and the sections accepted in between are distinct and were
    not visited in [st]. *)
Definition mext (st st' : State) : Prop :=
  is_alive st' = is_alive st ∧
  is_visited st ⊆ is_visited st' ∧
  frag_is_alive st ⊆ frag_is_alive st' ∧
  counter st' = counter st ∧
  sync_out st' = sync_out st ∧
  ∃ l, accepted st' = accepted st ++ l ∧ NoDup l ∧
       ∀ a, a ∈ l → a ∉ is_visited st ∧ a ∈ is_visited st'.

(** What is left to do: the sections waiting in the feeder and the alive
    sections not visited yet. *)
Definition measure (w : Work) : nat :=
  (length w.2 + size (is_alive w.1 ∖ is_visited w.1))%nat.

Definition wext (w w' : Work) : Prop :=
  mext w.1 w'.1 ∧ (measure w' ≤ measure w)%nat.

(** What lines 63-66 may do with an accepted section. *)
Definition descend_ok (d : isec_ptr → Work → Work) : Prop :=
  ∀ t w, mext w.1 (d t w).1 ∧ (measure (d t w) ≤ S (measure w))%nat.

(** The relocations the FDE loop runs over. *)
Definition fde_relocs (s : InputSection) : list EhReloc :=
  fdes s ≫= (fun fde => tail (fde_rels fde)).

(** Every edge of [a] is served in [st]: the targets that are alive are
    visited, and the fragments are alive. *)
Definition closed_at (ctx : Context) (st : State) (a : isec_ptr) : Prop :=
  (∀ b, b ∈ succs ctx a → b ∈ is_alive st → b ∈ is_visited st) ∧
  (∀ f, f ∈ frag_succs ctx a → f ∈ frag_is_alive st).

(** ** The invariant of the marker *)

Section MarkerInvariant.

Variable ctx : Context.
(** The state and the work list [mark] starts from. *)
Variable st0 : State.
Variable roots0 : list isec_ptr.

(** A section the marker may accept: alive, and not visited at the start. *)
Definition markable (p : isec_ptr) : Prop :=
  p ∈ is_alive st0 ∧ p ∉ is_visited st0.

(** The sections the marker is to accept. *)
Definition marked (p : isec_ptr) : Prop :=
  reachable ctx markable (roots0 ≫= succs ctx) p.

(** The sections the marker is to visit. *)
Definition toured (p : isec_ptr) : Prop := p ∈ roots0 ∨ marked p.

(** The invariant of the marker; [pending] holds the sections whose visit
    is still to come or under way. *)
Definition mark_inv (st : State) (pending : list isec_ptr) : Prop :=
  mext st0 st ∧
  (∀ a, a ∈ is_visited st → a ∈ is_visited st0 ∨ marked a) ∧
  (∀ f, f ∈ frag_is_alive st →
        f ∈ frag_is_alive st0 ∨ ∃ a, toured a ∧ f ∈ frag_succs ctx a) ∧
  (∀ a, a ∈ pending → toured a) ∧
  (∀ a, a ∈ roots0 ∨ (a ∈ is_visited st ∧ a ∉ is_visited st0) →
        a ∈ pending ∨ closed_at ctx st a).

(** What lines 63-66 do with an accepted section keeps the invariant: the
    section leaves [pending] for the feeder, or is visited. *)
Definition descend_inv (d : isec_ptr → Work → Work) : Prop :=
  ∀ t st fd X, mark_inv st (t :: X ++ fd) →
               mark_inv (d t (st, fd)).1 (X ++ (d t (st, fd)).2).

End MarkerInvariant.

(** The relocation [rel] of the section [s] is served in [w]. *)
Definition rel_served (ctx : Context) (s : InputSection) (w : Work)
    (rel : ElfRela) : Prop :=
  ∀ sym, get_symbol ctx s (r_sym rel) = Some sym →
    match sym_frag sym with
    | Some f => f ∈ frag_is_alive w.1
    | None => ∀ t, input_section sym = Some t →
                   t ∈ is_alive w.1 → t ∈ is_visited w.1
    end.

(** Membership in a list of pending sections, put together from [::] and
    [++]. *)
Ltac pending_solver :=
  intros ?;
  repeat (rewrite elem_of_app || rewrite elem_of_cons || rewrite elem_of_nil);
  tauto.

(** ** The root collector as a sequence of writes *)

(** The writes of [collect_root_set]. *)
Inductive RootAction :=
| StoreVisited (p : isec_ptr)               (* line 101 *)
| EnqueueSection (isec : option isec_ptr)   (* a call of [enqueue_section] *)
| FragAlive (f : frag_ptr).                 (* line 84 *)

Definition run_root_action (r : Roots) (a : RootAction) : Roots :=
  match a with
  | StoreVisited p => (visited_store_true p r.1, r.2)
  | EnqueueSection isec => enqueue_section isec r
  | FragAlive f => (frag_set_alive f r.1, r.2)
  end.

Definition symbol_actions (sym : Symbol) : list RootAction :=
  match sym_frag sym with
  | Some f => [FragAlive f]
  | None => [EnqueueSection (input_section sym)]
  end.

Definition section_actions (ctx : Context) (isec : option isec_ptr)
    : list RootAction :=
  match isec with
  | None => []
  | Some p =>
      match get_isec ctx p with
      | None => []
      | Some s =>
          (if lacks_alloc (shdr s) then [StoreVisited p] else []) ++
          (if is_init_fini s || (sh_type (shdr s) =? SHT_NOTE)
           then [EnqueueSection (Some p)] else [])
      end
  end.

Definition exported_actions (pf : nat * ObjectFile) : list RootAction :=
  symbols pf.2 ≫= (fun sym =>
    if (sym_file sym =? pf.1)%nat && is_exported sym
    then symbol_actions sym else []).

Definition scan_sections (ctx : Context) : list RootAction :=
  listed_slots ctx ≫= section_actions ctx.

Definition scan_exports (ctx : Context) : list RootAction :=
  imap pair (objs ctx) ≫= exported_actions.

Definition scan_named (ctx : Context) : list RootAction :=
  (entry (arg ctx) :: undefined (arg ctx)) ≫=
    (fun name => symbol_actions (intern ctx name)).

Definition scan_cies (ctx : Context) : list RootAction :=
  objs ctx ≫= (fun f => cies f ≫= (fun cie => cie_rels cie ≫= (fun rel =>
    [EnqueueSection (input_section (eh_sym rel))]))).

Definition root_actions (ctx : Context) : list RootAction :=
  scan_sections ctx ++ scan_exports ctx ++ scan_named ctx ++ scan_cies ctx.

(** The sections the scans of [collect_root_set] hand to
    [enqueue_section]: the roots, before [mark_section] has its say. *)
Definition root_candidates (ctx : Context) : list isec_ptr :=
  omap (fun a => match a with
                 | EnqueueSection isec => isec
                 | _ => None
                 end) (root_actions ctx).

(** ** The sections the collector decides on *)

(** Visited before the marker looks: visited on entry, or a section of some
    file that lacks ALLOC. *)
Definition exempt (ctx : Context) (st : State) (p : isec_ptr) : Prop :=
  p ∈ is_visited st ∨ (listed ctx p ∧ nonalloc ctx p).

(** The fragments [mark_nonalloc_fragments] sets alive. *)
Definition nonalloc_frag (ctx : Context) (f : frag_ptr) : Prop :=
  f ∈ objs ctx ≫= fragments ∧
  ∃ fr, get_frag ctx f = Some fr ∧
        lacks_alloc (out_shdr (output_section fr)) = true.

(** The lines the sweeper prints for the sections in [killed]. *)
Definition removal_lines (ctx : Context) (killed : list isec_ptr)
    : list OutputLine :=
  if print_gc_sections (arg ctx)
  then RemovingUnusedSection <$> killed
  else [].

(** A section the collector decides on: alive on entry and not exempt. *)
Definition eligible (ctx : Context) (st : State) (p : isec_ptr) : Prop :=
  p ∈ is_alive st ∧ ¬ exempt ctx st p.

(** ** The visits with the assertion of line 31

    [visit] once more, with [assert(isec->is_visited)] kept: [None] is the
    failed assertion (in [mark_loop_checked], the spent fuel as well). *)

(** The body of the loop of lines 48-67, where [descend] may fail. *)
Definition visit_rel_checked (ctx : Context)
    (descend : isec_ptr → Work → option Work)
    (s : InputSection) (w : Work) (rel : ElfRela) : option Work :=
  match get_symbol ctx s (r_sym rel) with
  | None => Some w
  | Some sym =>
      match sym_frag sym with
      | Some f => Some (frag_set_alive f w.1, w.2)
      | None =>
          let '(b, st') := mark_section (input_section sym) w.1 in
          if negb b then Some (st', w.2)
          else match input_section sym with
               | Some isec => descend isec (st', w.2)
               | None => Some (st', w.2)
               end
      end
  end.

Fixpoint visit_levels_checked (ctx : Context) (n : nat) (isec : isec_ptr)
    (w : Work) : option Work :=
  if bool_decide (isec ∈ is_visited w.1) then
    match get_isec ctx isec with
    | None => Some w
    | Some s =>
        let w1 := (visit_rel_fragments s w.1, w.2) in
        let w2 := visit_fdes s w1 in
        foldl (fun ow rel =>
                 ow ≫= (fun w =>
                   visit_rel_checked ctx
                     (match n with
                      | O => fun t w => Some (feeder_add t w)
                      | S m => visit_levels_checked ctx m
                      end) s w rel))
              (Some w2) (rels s)
    end
  else None.

Fixpoint mark_loop_checked (ctx : Context) (bound : Z) (fuel : nat)
    (queue : list isec_ptr) (st : State) : option State :=
  match queue with
  | [] => Some st
  | isec :: rest =>
      match fuel with
      | O => None
      | S fuel' =>
          match visit_levels_checked ctx (Z.to_nat (bound - 0)) isec (st, [])
          with
          | Some (st', added) =>
              mark_loop_checked ctx bound fuel' (rest ++ added) st'
          | None => None
          end
      end
  end.

Definition gc_sections_checked (ctx : Context) (st : State) : option State :=
  let st0 := mark_nonalloc_fragments ctx st in
  let '(st1, roots) := collect_root_set ctx st0 in
  match mark_loop_checked ctx 3 (mark_fuel roots st1) roots st1 with
  | Some st2 => Some (sweep ctx st2)
  | None => None
  end.

(** ** More vocabulary *)

(** From [st] to [st'] the sections that became visited are those the log
    of the accepted sections gained, and they are alive. *)
Definition vext (st st' : State) : Prop :=
  ∃ l, accepted st' = accepted st ++ l ∧
       is_visited st' = is_visited st ∪ list_to_set l ∧
       is_alive st' = is_alive st ∧
       ∀ p, p ∈ l → p ∈ is_alive st.

Definition wvext (w w' : Work) : Prop := vext w.1 w'.1.

(** Every section waiting in the feeder is visited. *)
Definition feeder_visited (w : Work) : Prop :=
  ∀ t, t ∈ w.2 → t ∈ is_visited w.1.

(** A step that only appends to the feeder it is given. *)
Definition feeder_parametric {B} (f : Work → B → Work) : Prop :=
  ∀ st fd x, f (st, fd) x = ((f (st, []) x).1, fd ++ (f (st, []) x).2).

(** The state without the ghost log. *)
Definition forget_accepted (st : State) : State :=
  {| is_alive := is_alive st; is_visited := is_visited st;
     frag_is_alive := frag_is_alive st; counter := counter st;
     sync_out := sync_out st; accepted := [] |}.

(** ** Scenarios *)

Module Scenario.

Definition text_shdr : ElfShdr := {| sh_type := 1; sh_flags := 6 |}.
Definition comment_shdr : ElfShdr := {| sh_type := 1; sh_flags := 0 |}.

Definition plain (f : nat) (n : string) (h : ElfShdr) (rs : list ElfRela)
    : InputSection :=
  {| file := f; shdr := h; name := n; rels := rs; rel_fragments := [];
     fdes := [] |}.

Definition sym_of (isec : isec_ptr) : Symbol :=
  {| sym_file := 0%nat; is_exported := false; sym_frag := None;
     input_section := Some isec |}.

Definition args0 : Args :=
  {| entry := "_start"; undefined := []; print_gc_sections := true |}.

Definition state0 (alive : gset isec_ptr) : State :=
  {| is_alive := alive; is_visited := ∅; frag_is_alive := ∅; counter := 0;
     sync_out := []; accepted := [] |}.

(** S2 of the spec: two text sections, the first holds the entry symbol. *)
Definition ctx_s2 : Context :=
  {| objs := [ {| sections := [Some 0%nat; Some 1%nat];
                  symbols := [sym_of 0]; fragments := []; cies := [] |} ];
     isecs := [ plain 0 ".text.a" text_shdr [];
                plain 0 ".text.b" text_shdr [] ];
     frags := [];
     symbol_map := [("_start"%string, sym_of 0)];
     arg := args0 |}.

(** S6 of the spec: a section without ALLOC that nothing refers to. *)
Definition ctx_s6 : Context :=
  {| objs := [ {| sections := [Some 0%nat]; symbols := [];
                  fragments := []; cies := [] |} ];
     isecs := [ plain 0 ".comment" comment_shdr [] ];
     frags := [];
     symbol_map := [];
     arg := args0 |}.

Definition sym_of_frag (f : frag_ptr) : Symbol :=
  {| sym_file := 0%nat; is_exported := false; sym_frag := Some f;
     input_section := None |}.

(** One file with the five sections
    - 0 .text.start: holds the entry symbol, refers to section 1 and to
      fragment 0, and has an FDE whose relocations refer to section 0 and to
      section 2;
    - 1 .text.f;
    - 2 .gcc_except_table;
    - 3 .comment, without ALLOC;
    - 4 .text.unused;
    and an empty slot. *)
Definition ctx_demo : Context :=
  {| objs := [ {| sections := [Some 0%nat; Some 1%nat; Some 2%nat; None;
                               Some 3%nat; Some 4%nat];
                  symbols := [sym_of 0; sym_of 1; sym_of_frag 0; sym_of 2];
                  fragments := [0%nat]; cies := [] |} ];
     isecs := [ {| file := 0; shdr := text_shdr; name := ".text.start";
                   rels := [ {| r_sym := 1 |}; {| r_sym := 2 |} ];
                   rel_fragments := [];
                   fdes := [ {| fde_rels := [ {| eh_sym := sym_of 0 |};
                                              {| eh_sym := sym_of 2 |} ] |} ] |};
                plain 0 ".text.f" text_shdr [];
                plain 0 ".gcc_except_table" {| sh_type := 1; sh_flags := 2 |} [];
                plain 0 ".comment" comment_shdr [];
                plain 0 ".text.unused" text_shdr [] ];
     frags := [ {| output_section := {| out_shdr := {| sh_type := 1; sh_flags := 50 |} |} |} ];
     symbol_map := [("_start"%string, sym_of 0)];
     arg := args0 |}.

(** A section 0 that holds the entry symbol and has an FDE whose
    relocations refer to section 1, at index 0, and to section 2, at
    index 1. *)
Definition ctx_fde : Context :=
  {| objs := [ {| sections := [Some 0%nat; Some 1%nat; Some 2%nat];
                  symbols := [sym_of 0]; fragments := []; cies := [] |} ];
     isecs := [ {| file := 0; shdr := text_shdr; name := ".text.start";
                   rels := []; rel_fragments := [];
                   fdes := [ {| fde_rels := [ {| eh_sym := sym_of 1 |};
                                              {| eh_sym := sym_of 2 |} ] |} ] |};
                plain 0 ".text.t" text_shdr [];
                plain 0 ".text.personality" text_shdr [] ];
     frags := [];
     symbol_map := [("_start"%string, sym_of 0)];
     arg := args0 |}.

End Scenario.

(** * Theorems *)

(** ** Basic facts *)

Lemma reachable_ok ctx ok roots p :
  reachable ctx ok roots p → ok p.
Proof. by intros [? ? ?|? ? ? ? ?]. Qed.

#[local] Arguments mark_section : simpl never.
#[local] Arguments visit_levels : simpl never.

Lemma state_eq (st st' : State) :
  is_alive st = is_alive st' → is_visited st = is_visited st' →
  frag_is_alive st = frag_is_alive st' → counter st = counter st' →
  sync_out st = sync_out st' → accepted st = accepted st' → st = st'.
Proof. destruct st, st'; simpl; congruence. Qed.

Lemma foldl_bind {A B C} (f : A → C → A) (g : B → list C) (a : A)
    (l : list B) :
  foldl f a (l ≫= g) = foldl (fun a x => foldl f a (g x)) a l.
Proof.
  revert a; induction l as [|x l IH]; intros a; [done|].
  cbn [mbind list_bind foldl]. by rewrite foldl_app, IH.
Qed.

Lemma foldl_ext_in {A B} (f g : A → B → A) (a : A) (l : list B) :
  (∀ a x, x ∈ l → f a x = g a x) → foldl f a l = foldl g a l.
Proof.
  revert a; induction l as [|x l IH]; intros a H; [done|]; simpl.
  rewrite H by left. apply IH. intros; apply H; by right.
Qed.

(** A relation that every step of a loop respects is respected by the
    loop. *)
Lemma foldl_preorder {A B} (R : relation A) `{!PreOrder R}
    (f : A → B → A) (l : list B) (a : A) :
  (∀ a x, x ∈ l → R a (f a x)) → R a (foldl f a l).
Proof.
  revert a; induction l as [|x l IH]; intros a H; simpl; [done|].
  etrans; [apply H; by left|]. apply IH. intros; apply H; by right.
Qed.

Lemma visited_store_true_id p st :
  p ∈ is_visited st → visited_store_true p st = st.
Proof.
  intros H. apply state_eq; simpl; try done. set_solver.
Qed.

Lemma frag_set_alive_id f st :
  f ∈ frag_is_alive st → frag_set_alive f st = st.
Proof.
  intros H. apply state_eq; simpl; try done. set_solver.
Qed.

(** What [mark_section] returns and leaves behind. *)
Lemma mark_section_spec isec st :
  (∃ p, isec = Some p ∧ p ∈ is_alive st ∧ p ∉ is_visited st ∧
        mark_section isec st = (true, log_accepted p (visited_store_true p st)))
  ∨ ((isec = None ∨ (∃ p, isec = Some p ∧
                          (p ∉ is_alive st ∨ p ∈ is_visited st))) ∧
     mark_section isec st = (false, st)).
Proof.
  unfold mark_section. destruct isec as [p|]; simpl; [|right; eauto].
  case_bool_decide as Ha; [|right; split; [right|]; eauto].
  case_bool_decide as Hv.
  - right. split; [right; eauto|]. by rewrite visited_store_true_id.
  - left. eauto 6.
Qed.

Lemma mark_section_true isec st st' :
  mark_section isec st = (true, st') →
  ∃ p, isec = Some p ∧ p ∈ is_alive st ∧ p ∉ is_visited st ∧
       st' = log_accepted p (visited_store_true p st).
Proof.
  destruct (mark_section_spec isec st) as [(p & -> & ? & ? & ->)|[_ ->]];
    intros [= <-]; eauto.
Qed.

Lemma mark_section_false isec st st' :
  mark_section isec st = (false, st') →
  st' = st ∧
  (isec = None ∨
   (∃ p, isec = Some p ∧ (p ∉ is_alive st ∨ p ∈ is_visited st))).
Proof.
  destruct (mark_section_spec isec st) as [(p & -> & ? & ? & ->)|[? ->]];
    intros [= <-]; eauto.
Qed.

(** ** What the phases before the sweep may change *)

#[local] Instance mext_preorder : PreOrder mext.
Proof.
  split.
  - intros st. do 5 (split; [done|]). exists []. rewrite app_nil_r.
    split; [done|]. split; [constructor|]. intros a Ha. by inversion Ha.
  - intros st1 st2 st3 (Ha1 & Hv1 & Hf1 & Hc1 & Ho1 & l1 & Hl1 & Hn1 & Hm1)
      (Ha2 & Hv2 & Hf2 & Hc2 & Ho2 & l2 & Hl2 & Hn2 & Hm2).
    split; [congruence|]. split; [by etrans|]. split; [by etrans|].
    split; [congruence|]. split; [congruence|].
    exists (l1 ++ l2). rewrite Hl2, Hl1, app_assoc. split; [done|]. split.
    + apply NoDup_app. split; [done|]. split; [|done].
      intros a Ha Ha'. apply Hm1 in Ha. apply Hm2 in Ha'. tauto.
    + intros a [Ha|Ha]%elem_of_app.
      * apply Hm1 in Ha. destruct Ha; split; [done|]. by apply Hv2.
      * apply Hm2 in Ha. destruct Ha as [Hn ?]; split; [|done].
        intros ?; apply Hn. by apply Hv1.
Qed.

Lemma mext_no_accept st st' :
  is_alive st' = is_alive st → is_visited st ⊆ is_visited st' →
  frag_is_alive st ⊆ frag_is_alive st' → counter st' = counter st →
  sync_out st' = sync_out st → accepted st' = accepted st → mext st st'.
Proof.
  intros. do 5 (split; [done|]). exists []. rewrite app_nil_r.
  split; [done|]. split; [constructor|]. intros a Ha. by inversion Ha.
Qed.

Lemma mext_accepted_new st st' l :
  mext st st' → accepted st' = accepted st ++ l →
  NoDup l ∧ ∀ a, a ∈ l → a ∉ is_visited st ∧ a ∈ is_visited st'.
Proof.
  intros (_ & _ & _ & _ & _ & l' & Hl' & ? & ?) Hl.
  rewrite Hl in Hl'. by apply app_inv_head in Hl' as ->.
Qed.

Lemma mext_frag_set_alive f st : mext st (frag_set_alive f st).
Proof. apply mext_no_accept; simpl; try done. apply union_subseteq_r. Qed.

Lemma mext_visited_store_true p st : mext st (visited_store_true p st).
Proof. apply mext_no_accept; simpl; try done. apply union_subseteq_r. Qed.

Lemma mext_accept p st :
  p ∉ is_visited st → mext st (log_accepted p (visited_store_true p st)).
Proof.
  intros Hp. split; [done|]. split; [apply union_subseteq_r|].
  do 3 (split; [done|]).
  exists [p]. split; [done|]. split; [apply NoDup_singleton|].
  intros a ->%list_elem_of_singleton. split; [done|]. simpl.
  apply elem_of_union_l. by apply elem_of_singleton.
Qed.

Lemma mext_mark_section isec st : mext st (mark_section isec st).2.
Proof.
  destruct (mark_section_spec isec st) as [(p & -> & ? & ? & ->)|[_ ->]];
    simpl; [by apply mext_accept|done].
Qed.

(** ** The visits respect [mext] and end *)

#[local] Instance wext_preorder : PreOrder wext.
Proof.
  split.
  - intros w. split; [done|lia].
  - intros w1 w2 w3 [H1 L1] [H2 L2]. split; [by etrans|lia].
Qed.

Lemma mext_size st st' :
  mext st st' →
  (size (is_alive st' ∖ is_visited st') ≤ size (is_alive st ∖ is_visited st))%nat.
Proof.
  intros (Ha & Hv & _). apply subseteq_size. rewrite Ha.
  intros x [? ?]%elem_of_difference. apply elem_of_difference.
  split; [done|]. intros ?. auto.
Qed.

Lemma wext_same_feeder st st' fd : mext st st' → wext (st, fd) (st', fd).
Proof.
  intros H. split; [done|]. unfold measure; simpl.
  apply mext_size in H. lia.
Qed.

Lemma size_accept p st :
  p ∈ is_alive st → p ∉ is_visited st →
  (S (size (is_alive st ∖ ({[p]} ∪ is_visited st)))
   = size (is_alive st ∖ is_visited st))%nat.
Proof.
  intros Ha Hv.
  assert (is_alive st ∖ is_visited st
          = {[p]} ∪ is_alive st ∖ ({[p]} ∪ is_visited st)) as ->.
  { apply set_eq. intros x.
    rewrite elem_of_union, !elem_of_difference, elem_of_union,
      elem_of_singleton.
    destruct (decide (x = p)) as [-> |]; tauto. }
  pose proof (size_union (C:=gset nat) {[p]}
                (is_alive st ∖ ({[p]} ∪ is_visited st))) as Hs.
  rewrite Hs, size_singleton; [done|].
  intros x ->%elem_of_singleton [_ Hx]%elem_of_difference.
  apply Hx, elem_of_union_l. by apply elem_of_singleton.
Qed.

(** Accepting a section and handing it to the feeder leaves the measure as
    it is. *)
Lemma wext_accept_add p st fd :
  p ∈ is_alive st → p ∉ is_visited st →
  wext (st, fd) (feeder_add p (log_accepted p (visited_store_true p st), fd)).
Proof.
  intros Ha Hv. split; [by apply mext_accept|].
  unfold measure; simpl. rewrite length_app; simpl.
  pose proof (size_accept p st Ha Hv). lia.
Qed.

Lemma visit_rel_fragments_mext s st : mext st (visit_rel_fragments s st).
Proof.
  apply (foldl_preorder mext). intros; apply mext_frag_set_alive.
Qed.

Lemma visit_eh_reloc_wext w rel : wext w (visit_eh_reloc w rel).
Proof.
  destruct w as [st fd]. unfold visit_eh_reloc; simpl.
  destruct (input_section (eh_sym rel)) as [p|]; [|done].
  destruct (mark_section_spec (Some p) st)
    as [(? & [= <-] & ? & ? & ->)|[_ ->]]; [|done].
  by apply wext_accept_add.
Qed.

Lemma visit_fde_wext w fde : wext w (visit_fde w fde).
Proof.
  apply (foldl_preorder wext). intros; apply visit_eh_reloc_wext.
Qed.

Lemma visit_fdes_wext s w : wext w (visit_fdes s w).
Proof. apply (foldl_preorder wext). intros; apply visit_fde_wext. Qed.

Lemma feeder_add_descend_ok : descend_ok feeder_add.
Proof.
  intros t [st fd]. split; [done|]. unfold measure; simpl.
  rewrite length_app; simpl. lia.
Qed.

Lemma visit_rel_wext ctx d s w rel :
  descend_ok d → wext w (visit_rel ctx d s w rel).
Proof.
  intros Hd. destruct w as [st fd]. unfold visit_rel; simpl.
  destruct (get_symbol ctx s (r_sym rel)) as [sym|]; [|done].
  destruct (sym_frag sym) as [f|].
  { apply wext_same_feeder, mext_frag_set_alive. }
  destruct (mark_section_spec (input_section sym) st)
    as [(p & -> & Ha & Hv & ->)|[_ ->]]; simpl; [|done].
  destruct (Hd p (log_accepted p (visited_store_true p st), fd)) as [Hm Hl].
  split; simpl.
  - etrans; [by apply mext_accept|done].
  - revert Hl.
    generalize (measure (d p (log_accepted p (visited_store_true p st), fd))).
    intros m. unfold measure; simpl.
    pose proof (size_accept p st Ha Hv). lia.
Qed.

Lemma visit_levels_eq ctx n isec w :
  visit_levels ctx n isec w =
  match get_isec ctx isec with
  | None => w
  | Some s =>
      foldl (visit_rel ctx
               (match n with
                | O => feeder_add
                | S m => visit_levels ctx m
                end) s)
        (visit_fdes s (visit_rel_fragments s w.1, w.2)) (rels s)
  end.
Proof. by destruct n. Qed.

Lemma visit_rel_ext ctx d d' s w rel :
  (∀ t w, d t w = d' t w) →
  visit_rel ctx d s w rel = visit_rel ctx d' s w rel.
Proof.
  intros H. unfold visit_rel.
  destruct (get_symbol ctx s (r_sym rel)) as [sym|]; [|done].
  destruct (sym_frag sym); [done|].
  destruct (mark_section (input_section sym) w.1) as [[] st']; simpl; [|done].
  by destruct (input_section sym).
Qed.

(** [visit] as the source has it, with the test [depth < bound] of line 63
    and the call at [depth + 1] of line 64. *)
Lemma visit_bound_unfold bound ctx isec w depth :
  visit_bound bound ctx isec w depth =
  match get_isec ctx isec with
  | None => w
  | Some s =>
      foldl (visit_rel ctx
               (fun t w' =>
                  if depth <? bound
                  then visit_bound bound ctx t w' (depth + 1)
                  else feeder_add t w') s)
        (visit_fdes s (visit_rel_fragments s w.1, w.2)) (rels s)
  end.
Proof.
  unfold visit_bound. rewrite visit_levels_eq.
  destruct (get_isec ctx isec) as [s|]; [|done].
  apply foldl_ext_in. intros a rel _. apply visit_rel_ext. intros t w'.
  destruct (Z.ltb_spec depth bound).
  - replace (Z.to_nat (bound - depth))
      with (S (Z.to_nat (bound - (depth + 1)))) by lia. done.
  - replace (Z.to_nat (bound - depth)) with O by lia. done.
Qed.

Lemma visit_levels_wext ctx n : ∀ isec w, wext w (visit_levels ctx n isec w).
Proof.
  assert (∀ d, descend_ok d → ∀ isec w,
    wext w match get_isec ctx isec with
           | None => w
           | Some s =>
               foldl (visit_rel ctx d s)
                 (visit_fdes s (visit_rel_fragments s w.1, w.2)) (rels s)
           end) as Hbody.
  { intros d Hd isec [st fd]. destruct (get_isec ctx isec) as [s|]; [|done].
    etrans; [apply wext_same_feeder, (visit_rel_fragments_mext s)|].
    etrans; [apply visit_fdes_wext|].
    apply (foldl_preorder wext). intros; by apply visit_rel_wext. }
  induction n as [|n IH]; intros isec w; rewrite visit_levels_eq.
  - apply Hbody, feeder_add_descend_ok.
  - apply Hbody. intros t w'. destruct (IH t w') as [? ?]. split; [done|lia].
Qed.

(** The work list drains: [mark_loop] returns whenever the fuel covers the
    measure. *)
Lemma mark_loop_returns ctx bound fuel : ∀ queue st,
  (measure (st, queue) ≤ fuel)%nat →
  ∃ st', mark_loop ctx bound fuel queue st = Some st' ∧ mext st st'.
Proof.
  induction fuel as [|fuel IH]; intros [|isec rest] st Hm; simpl.
  - by exists st.
  - unfold measure in Hm; simpl in Hm; lia.
  - by exists st.
  - unfold visit_bound.
    destruct (visit_levels ctx (Z.to_nat (bound - 0)) isec (st, []))
      as [st1 added] eqn:Hv.
    destruct (visit_levels_wext ctx (Z.to_nat (bound - 0)) isec (st, []))
      as [Hx Hl].
    rewrite Hv in Hx, Hl; simpl in Hx.
    destruct (IH (rest ++ added) st1) as (st' & -> & Hx').
    { revert Hm Hl. unfold measure; simpl. rewrite length_app. lia. }
    exists st'. split; [done|]. by etrans.
Qed.

Lemma mark_bound_returns bound ctx roots st :
  ∃ st', mark_bound bound ctx roots st = Some st' ∧ mext st st'.
Proof. by apply mark_loop_returns. Qed.

(** A loop that keeps [I] and settles [D x] for each element [x] it runs
    over, where what is settled stays settled along [R]. *)
Lemma foldl_inv {A B} (R : relation A) `{!PreOrder R} (I : A → Prop)
    (D : A → B → Prop) (f : A → B → A) (l : list B) (a : A) :
  (∀ a a' x, R a a' → D a x → D a' x) →
  (∀ a x, x ∈ l → I a → I (f a x) ∧ D (f a x) x ∧ R a (f a x)) →
  I a →
  I (foldl f a l) ∧ (∀ x, x ∈ l → D (foldl f a l) x) ∧ R a (foldl f a l).
Proof.
  intros Hmono. revert a. induction l as [|x l IH]; intros a Hstep Ha; simpl.
  { split; [done|]. split; [|done]. intros x Hx. by inversion Hx. }
  destruct (Hstep a x) as (Ha1 & Hd1 & Hr1); [by left|done|].
  destruct (IH (f a x)) as (Hi & Hd & Hr); [|done|].
  { intros; apply Hstep; [by right|done]. }
  split; [done|]. split; [|by etrans].
  intros y [-> |Hy]%elem_of_cons; [by eapply Hmono|by apply Hd].
Qed.

(** ** The edges, as the loops of [visit] meet them *)

Lemma visit_fdes_flat s w : visit_fdes s w = foldl visit_eh_reloc w (fde_relocs s).
Proof. unfold visit_fdes, fde_relocs. by rewrite foldl_bind. Qed.

Lemma elem_of_fde_targets s t :
  t ∈ fde_targets s ↔
  ∃ rel, rel ∈ fde_relocs s ∧ input_section (eh_sym rel) = Some t.
Proof.
  unfold fde_targets, fde_relocs. rewrite list_elem_of_bind. split.
  - intros (fde & (rel & ? & ?)%list_elem_of_omap & ?).
    exists rel. split; [|done]. apply list_elem_of_bind; eauto.
  - intros (rel & (fde & ? & ?)%list_elem_of_bind & ?).
    exists fde. split; [|done]. apply list_elem_of_omap; eauto.
Qed.

Lemma elem_of_rel_targets ctx s t :
  t ∈ rel_targets ctx s ↔
  ∃ rel sym, rel ∈ rels s ∧ get_symbol ctx s (r_sym rel) = Some sym ∧
             sym_frag sym = None ∧ input_section sym = Some t.
Proof.
  unfold rel_targets. rewrite list_elem_of_omap. split.
  - intros (rel & ? & Hb). exists rel.
    destruct (get_symbol ctx s (r_sym rel)) as [sym|]; [|done]. simpl in Hb.
    exists sym. by destruct (sym_frag sym).
  - intros (rel & sym & ? & Hs & Hf & ?). exists rel. split; [done|].
    rewrite Hs; simpl. by rewrite Hf.
Qed.

Lemma elem_of_rel_frag_targets ctx s f :
  f ∈ rel_frag_targets ctx s ↔
  ∃ rel sym, rel ∈ rels s ∧ get_symbol ctx s (r_sym rel) = Some sym ∧
             sym_frag sym = Some f.
Proof.
  unfold rel_frag_targets. rewrite list_elem_of_omap. split.
  - intros (rel & ? & Hb). exists rel.
    destruct (get_symbol ctx s (r_sym rel)) as [sym|]; [|done]. by exists sym.
  - intros (rel & sym & ? & Hs & ?). exists rel. split; [done|].
    by rewrite Hs.
Qed.

Lemma closed_at_mext ctx st st' a :
  mext st st' → closed_at ctx st a → closed_at ctx st' a.
Proof.
  intros (Ha & Hv & Hf & _) [Hs Hfs]. split.
  - intros b Hb Hal. apply Hv, Hs; [done|]. by rewrite <- Ha.
  - intros f Hfr. by apply Hf, Hfs.
Qed.

(** ** The marker computes the sections reachable from the roots *)

Section Marking.

Variable ctx : Context.
(** The state and the work list [mark] starts from. *)
Variable st0 : State.
Variable roots0 : list isec_ptr.

Local Notation markable := (markable st0).
Local Notation marked := (marked ctx st0 roots0).
Local Notation toured := (toured ctx st0 roots0).
Local Notation mark_inv := (mark_inv ctx st0 roots0).
Local Notation descend_inv := (descend_inv ctx st0 roots0).

Lemma mark_inv_init : mark_inv st0 roots0.
Proof.
  split; [done|]. split; [by left|]. split; [by left|].
  split; [by left|]. intros a [?|[? ?]]; [by left|done].
Qed.

Lemma toured_succ s t :
  toured s → t ∈ succs ctx s → markable t → marked t.
Proof.
  intros [Hs|Hs] Ht Hok.
  - apply reachable_root; [|done]. apply list_elem_of_bind; eauto.
  - by eapply reachable_edge.
Qed.

(** Pending sections may be reordered, and dropped once all their edges are
    served. *)
Lemma mark_inv_pending st P P' :
  mark_inv st P →
  (∀ a, a ∈ P → a ∈ P' ∨ closed_at ctx st a) →
  (∀ a, a ∈ P' → a ∈ P) →
  mark_inv st P'.
Proof.
  intros (Hx & Hs & Hf & Hp & Hc) Hdrop Hsub.
  do 3 (split; [done|]). split; [by auto|].
  intros a Ha. destruct (Hc a Ha) as [?|?]; [by auto|by right].
Qed.

Lemma mark_inv_frag st P s f :
  mark_inv st P → s ∈ P → f ∈ frag_succs ctx s →
  mark_inv (frag_set_alive f st) P.
Proof.
  intros (Hx & Hs & Hf & Hp & Hc) HsP Hfs.
  split; [etrans; [done|apply mext_frag_set_alive]|].
  split; [done|]. split; [|split; [done|]].
  - simpl. intros f' [->%elem_of_singleton|?]%elem_of_union; [|by auto].
    right. exists s. auto.
  - intros a Ha. destruct (Hc a Ha) as [?|?]; [by left|right].
    eapply closed_at_mext; [apply mext_frag_set_alive|done].
Qed.

Lemma mark_inv_accept st P s t :
  mark_inv st P → s ∈ P → t ∈ succs ctx s →
  t ∈ is_alive st → t ∉ is_visited st →
  mark_inv (log_accepted t (visited_store_true t st)) (t :: P).
Proof.
  intros (Hx & Hs & Hf & Hp & Hc) HsP Hts Hta Htv.
  assert (marked t) as Hmt.
  { apply (toured_succ s); [by auto|done|].
    destruct Hx as (Ha & Hv & _). split; [by rewrite <- Ha|]. by auto. }
  split; [etrans; [done|by apply mext_accept]|].
  split; [|split; [done|split]].
  - simpl. intros a [->%elem_of_singleton|?]%elem_of_union; by auto.
  - intros a [-> |?]%elem_of_cons; [by right|by auto].
  - simpl. intros a Ha.
    destruct (decide (a = t)) as [-> |Hne]; [left; by left|].
    destruct (Hc a) as [?|?].
    + destruct Ha as [?|[[?%elem_of_singleton|?]%elem_of_union ?]];
        [by left|done|by right].
    + left; by right.
    + right. eapply closed_at_mext; [by apply mext_accept|done].
Qed.

Lemma feeder_add_descend_inv : descend_inv feeder_add.
Proof.
  intros t st fd X H. simpl. eapply mark_inv_pending; [done| |];
    pending_solver.
Qed.

(** The three loops of a visit of [isec], whose record is [s]. *)
Section Visit.

Variable isec : isec_ptr.
Variable s : InputSection.
Hypothesis Hisec : get_isec ctx isec = Some s.
Variable X : list isec_ptr.

Local Notation rel_served := (rel_served ctx s).

Lemma visit_rel_fragments_inv st fd :
  mark_inv st (isec :: X ++ fd) →
  mark_inv (visit_rel_fragments s st) (isec :: X ++ fd) ∧
  ∀ ref, ref ∈ rel_fragments s →
         ref_frag ref ∈ frag_is_alive (visit_rel_fragments s st).
Proof.
  intros H.
  destruct (foldl_inv mext (fun st => mark_inv st (isec :: X ++ fd))
              (fun st ref => ref_frag ref ∈ frag_is_alive st)
              (fun st ref => frag_set_alive (ref_frag ref) st)
              (rel_fragments s) st) as (Hi & Hd & _); [| |done|done].
  - intros a a' ref (_ & _ & Hf & _) ?. by apply Hf.
  - intros a ref Href Ha. split; [|split].
    + eapply mark_inv_frag; [done|by left|].
      unfold frag_succs. rewrite Hisec. apply elem_of_app. left.
      by apply list_elem_of_fmap_2.
    + simpl. apply elem_of_union_l. by apply elem_of_singleton.
    + apply mext_frag_set_alive.
Qed.

Lemma visit_fdes_inv w :
  mark_inv w.1 (isec :: X ++ w.2) →
  mark_inv (visit_fdes s w).1 (isec :: X ++ (visit_fdes s w).2) ∧
  ∀ t, t ∈ fde_targets s → t ∈ is_alive (visit_fdes s w).1 →
       t ∈ is_visited (visit_fdes s w).1.
Proof.
  intros H. rewrite visit_fdes_flat.
  destruct (foldl_inv wext (fun w => mark_inv w.1 (isec :: X ++ w.2))
              (fun w rel => ∀ t, input_section (eh_sym rel) = Some t →
                                 t ∈ is_alive w.1 → t ∈ is_visited w.1)
              visit_eh_reloc (fde_relocs s) w) as (Hi & Hd & _); [| |done|].
  - intros a a' rel [(Ha & Hv & _) _] Hd t Ht Hal.
    apply Hv, Hd; [done|]. by rewrite <- Ha.
  - intros [st fd] rel Hrel Ha. split; [|split]; [| |apply visit_eh_reloc_wext].
    + unfold visit_eh_reloc; simpl in *.
      destruct (input_section (eh_sym rel)) as [t|] eqn:Ht; [|done].
      destruct (mark_section_spec (Some t) st)
        as [(? & [= <-] & ? & ? & ->)|[_ ->]]; [|done]. simpl.
      eapply mark_inv_pending;
        [eapply (mark_inv_accept _ _ isec t); [done|by left| |done|done]| |].
      * unfold succs. rewrite Hisec. apply elem_of_app. left.
        apply elem_of_fde_targets; eauto.
      * pending_solver.
      * pending_solver.
    + unfold visit_eh_reloc; simpl. intros t Ht. rewrite Ht.
      destruct (mark_section_spec (Some t) st)
        as [(? & [= <-] & ? & ? & ->)|[[[=]|(? & [= <-] & Hr)] ->]]; simpl.
      * intros _. apply elem_of_union_l. by apply elem_of_singleton.
      * tauto.
  - split; [done|]. intros t (rel & ? & ?)%elem_of_fde_targets. by eapply Hd.
Qed.

Lemma rel_served_wext w w' rel :
  wext w w' → rel_served w rel → rel_served w' rel.
Proof.
  intros [(Ha & Hv & Hf & _) _] Hd sym Hsym. specialize (Hd sym Hsym).
  destruct (sym_frag sym); [by apply Hf|].
  intros t Ht Hal. apply Hv, Hd; [done|]. by rewrite <- Ha.
Qed.

Lemma visit_rel_inv d w rel :
  descend_ok d → descend_inv d → rel ∈ rels s →
  mark_inv w.1 (isec :: X ++ w.2) →
  mark_inv (visit_rel ctx d s w rel).1
           (isec :: X ++ (visit_rel ctx d s w rel).2) ∧
  rel_served (visit_rel ctx d s w rel) rel.
Proof.
  intros Hok Hd Hrel H. destruct w as [st fd]. simpl in H.
  unfold visit_rel, rel_served; simpl.
  destruct (get_symbol ctx s (r_sym rel)) as [sym|] eqn:Hsym; [|done].
  destruct (sym_frag sym) as [f|] eqn:Hfrag.
  { split.
    - simpl. eapply mark_inv_frag; [done|by left|].
      unfold frag_succs. rewrite Hisec. apply elem_of_app. right.
      apply elem_of_rel_frag_targets; eauto.
    - intros ? [= <-]. rewrite Hfrag. simpl.
      apply elem_of_union_l. by apply elem_of_singleton. }
  destruct (mark_section_spec (input_section sym) st)
    as [(t & Ht & Hal & Hnv & ->)|[Hr ->]]; simpl.
  - rewrite Ht.
    set (st1 := log_accepted t (visited_store_true t st)).
    assert (mark_inv st1 (t :: (isec :: X) ++ fd)) as H1.
    { eapply (mark_inv_accept _ _ isec t); [done|by left| |done|done].
      unfold succs. rewrite Hisec. apply elem_of_app. right.
      apply elem_of_rel_targets; eauto 6. }
    split; [by apply (Hd t st1 fd (isec :: X))|].
    intros ? [= <-]. rewrite Hfrag. intros t' Ht' _.
    assert (t' = t) as -> by congruence.
    destruct (Hok t (st1, fd)) as [(_ & Hv & _) _]. apply Hv. simpl.
    apply elem_of_union_l. by apply elem_of_singleton.
  - split; [done|]. intros ? [= <-]. rewrite Hfrag. intros t Ht.
    destruct Hr as [?|(? & ? & ?)]; [congruence|].
    assert (x = t) as -> by congruence. tauto.
Qed.

(** The three loops serve every edge of [isec]. *)
Lemma visit_body_closed d st fd :
  descend_ok d → descend_inv d →
  mark_inv st (isec :: X ++ fd) →
  let w' := foldl (visit_rel ctx d s)
              (visit_fdes s (visit_rel_fragments s st, fd)) (rels s) in
  mark_inv w'.1 (isec :: X ++ w'.2) ∧ closed_at ctx w'.1 isec.
Proof.
  intros Hok Hd H.
  destruct (visit_rel_fragments_inv st fd H) as [H1 Hf1].
  destruct (visit_fdes_inv (visit_rel_fragments s st, fd) H1) as [H2 Hf2].
  set (w2 := visit_fdes s (visit_rel_fragments s st, fd)) in *.
  assert (wext (visit_rel_fragments s st, fd) w2) as [Hx12 _]
    by apply visit_fdes_wext.
  destruct (foldl_inv wext (fun w => mark_inv w.1 (isec :: X ++ w.2))
              rel_served (visit_rel ctx d s) (rels s) w2)
    as (H3 & Hf3 & [Hx23 _]); [apply rel_served_wext| |done|].
  { intros a rel Hrel Ha. destruct (visit_rel_inv d a rel) as [? ?]; try done.
    split; [done|]. split; [done|]. by apply visit_rel_wext. }
  intros w'. fold w' in H3, Hf3, Hx23. split; [done|].
  split.
  - intros b Hb Hal. unfold succs in Hb. rewrite Hisec in Hb.
    apply elem_of_app in Hb as [Hb|Hb].
    + destruct Hx23 as (Ha & Hv & _). apply Hv, Hf2; [done|].
      by rewrite <- Ha.
    + apply elem_of_rel_targets in Hb as (rel & sym & Hrel & Hsym & Hfr & Ht).
      specialize (Hf3 rel Hrel sym Hsym). rewrite Hfr in Hf3. by apply Hf3.
  - intros f Hf. unfold frag_succs in Hf. rewrite Hisec in Hf.
    apply elem_of_app in Hf as [Hf|Hf].
    + apply list_elem_of_fmap in Hf as (ref & -> & Href).
      destruct Hx23 as (_ & _ & Hf23 & _). destruct Hx12 as (_ & _ & Hf12 & _).
      apply Hf23, Hf12. simpl. by apply Hf1.
    + apply elem_of_rel_frag_targets in Hf as (rel & sym & Hrel & Hsym & Hfr).
      specialize (Hf3 rel Hrel sym Hsym). by rewrite Hfr in Hf3.
Qed.

Lemma visit_body_inv d st fd :
  descend_ok d → descend_inv d →
  mark_inv st (isec :: X ++ fd) →
  let w' := foldl (visit_rel ctx d s)
              (visit_fdes s (visit_rel_fragments s st, fd)) (rels s) in
  mark_inv w'.1 (X ++ w'.2).
Proof.
  intros Hok Hd H w'.
  destruct (visit_body_closed d st fd Hok Hd H) as [H3 Hc]. fold w' in H3, Hc.
  eapply mark_inv_pending; [done| |by right].
  intros a [-> |?]%elem_of_cons; [by right|by left].
Qed.

End Visit.

Lemma visit_levels_inv n : descend_inv (visit_levels ctx n).
Proof.
  assert (∀ d, descend_ok d → descend_inv d → ∀ t st fd X,
            mark_inv st (t :: X ++ fd) →
            let w' := match get_isec ctx t with
                      | None => (st, fd)
                      | Some s =>
                          foldl (visit_rel ctx d s)
                            (visit_fdes s (visit_rel_fragments s st, fd))
                            (rels s)
                      end in
            mark_inv w'.1 (X ++ w'.2)) as Hbody.
  { intros d Hok Hd t st fd X H.
    destruct (get_isec ctx t) as [s|] eqn:Ht.
    - by apply (visit_body_inv t s Ht X d st fd).
    - simpl. eapply mark_inv_pending; [done| |by right].
      intros a [-> |?]%elem_of_cons; [right|by left].
      unfold closed_at, succs, frag_succs. rewrite Ht.
      split; intros ? Hin; by inversion Hin. }
  induction n as [|n IH]; intros t st fd X H; rewrite visit_levels_eq.
  - by apply (Hbody _ feeder_add_descend_ok feeder_add_descend_inv).
  - apply (Hbody (visit_levels ctx n)); [|done|done].
    intros t' w'. destruct (visit_levels_wext ctx n t' w') as [? ?].
    split; [done|lia].
Qed.

(** A visit serves every edge of the section it visits. *)
Lemma visit_levels_closed n isec st fd X :
  mark_inv st (isec :: X ++ fd) →
  closed_at ctx (visit_levels ctx n isec (st, fd)).1 isec.
Proof.
  intros H. rewrite visit_levels_eq.
  destruct (get_isec ctx isec) as [s|] eqn:Hs.
  - apply (visit_body_closed isec s Hs X); [|by destruct n; [apply feeder_add_descend_inv|apply visit_levels_inv]|done].
    destruct n as [|n]; [apply feeder_add_descend_ok|].
    intros t' w'. destruct (visit_levels_wext ctx n t' w') as [? ?].
    split; [done|lia].
  - unfold closed_at, succs, frag_succs. rewrite Hs.
    split; intros ? Hin; by inversion Hin.
Qed.

Lemma mark_loop_inv bound fuel : ∀ queue st,
  mark_inv st queue → (measure (st, queue) ≤ fuel)%nat →
  ∃ st', mark_loop ctx bound fuel queue st = Some st' ∧ mark_inv st' [].
Proof.
  induction fuel as [|fuel IH]; intros [|isec rest] st Hi Hm; simpl.
  - by exists st.
  - unfold measure in Hm; simpl in Hm; lia.
  - by exists st.
  - unfold visit_bound.
    pose proof (visit_levels_inv (Z.to_nat (bound - 0)) isec st [] rest) as Hv.
    pose proof (visit_levels_wext ctx (Z.to_nat (bound - 0)) isec (st, []))
      as [_ Hl].
    destruct (visit_levels ctx (Z.to_nat (bound - 0)) isec (st, []))
      as [st1 added]. simpl in Hv.
    apply IH.
    + apply Hv. by rewrite app_nil_r.
    + revert Hm Hl. unfold measure; simpl. rewrite length_app. lia.
Qed.

(** At the end every section to visit has all its edges served. *)
Lemma mark_inv_final st p :
  mark_inv st [] → marked p → p ∈ is_visited st.
Proof.
  intros (Hx & _ & _ & _ & Hc) Hp.
  assert (∀ a b, a ∈ roots0 ∨ (a ∈ is_visited st ∧ a ∉ is_visited st0) →
                 b ∈ succs ctx a → markable b → b ∈ is_visited st) as Hstep.
  { intros a b Ha Hb [Hal _]. destruct (Hc a Ha) as [Hin|[Hs _]].
    - by inversion Hin.
    - apply Hs; [done|]. destruct Hx as (-> & _). done. }
  induction Hp as [r (q & ? & ?)%list_elem_of_bind Hok|a b Ha IH Hb Hok].
  - apply (Hstep q r); auto.
  - apply (Hstep a b); [right|done|done]. split; [done|].
    by apply (reachable_ok _ _ _ _ Ha).
Qed.

(** What [mark] leaves behind: the sections visited are those visited
    before and those to accept; the fragments alive are those alive before
    and those one edge away from a section to visit. *)
Lemma mark_bound_spec bound :
  ∃ st', mark_bound bound ctx roots0 st0 = Some st' ∧
         mext st0 st' ∧
         (∀ p, p ∈ is_visited st' ↔ p ∈ is_visited st0 ∨ marked p) ∧
         (∀ f, f ∈ frag_is_alive st' ↔
               f ∈ frag_is_alive st0 ∨ ∃ a, toured a ∧ f ∈ frag_succs ctx a).
Proof.
  destruct (mark_loop_inv bound (mark_fuel roots0 st0) roots0 st0)
    as (st' & Hst' & Hi); [apply mark_inv_init|done|].
  exists st'. split; [done|].
  pose proof Hi as (Hx & Hs & Hf & _ & Hc). split; [done|].
  assert (∀ a, toured a → closed_at ctx st' a) as Hclosed.
  { intros a Ha. destruct (Hc a) as [Hin|?]; [|by inversion Hin|done].
    destruct Ha as [?|Hm]; [by left|right].
    split; [by eapply mark_inv_final|].
    by apply (reachable_ok _ _ _ _ Hm). }
  split.
  - intros p. split; [by apply Hs|].
    intros [?|?]; [|by eapply mark_inv_final].
    destruct Hx as (_ & Hv & _). by apply Hv.
  - intros f. split; [by apply Hf|].
    intros [?|(a & Ha & Hfa)].
    + destruct Hx as (_ & _ & Hfr & _). by apply Hfr.
    + by apply (Hclosed a Ha).
Qed.

End Marking.

(** ** The root collector as a sequence of writes *)

Lemma enqueue_symbol_actions sym r :
  enqueue_symbol (Some sym) r = foldl run_root_action r (symbol_actions sym).
Proof.
  unfold enqueue_symbol, symbol_actions. by destruct (sym_frag sym).
Qed.

Lemma root_section_actions ctx r isec :
  root_section ctx r isec = foldl run_root_action r (section_actions ctx isec).
Proof.
  unfold root_section, section_actions. destruct isec as [p|]; [|done].
  destruct (get_isec ctx p) as [s|]; [|done].
  by destruct (lacks_alloc (shdr s)),
    (is_init_fini s || (sh_type (shdr s) =? SHT_NOTE)).
Qed.

Lemma root_sections_actions ctx r :
  root_sections ctx r = foldl run_root_action r (scan_sections ctx).
Proof.
  unfold root_sections, scan_sections, listed_slots.
  rewrite !foldl_bind. apply foldl_ext_in. intros a f _.
  apply foldl_ext_in. intros; apply root_section_actions.
Qed.

Lemma root_exports_actions ctx r :
  root_exports ctx r = foldl run_root_action r (scan_exports ctx).
Proof.
  unfold root_exports, scan_exports. rewrite foldl_bind.
  apply foldl_ext_in. intros a pf _. unfold exported_actions.
  rewrite foldl_bind. apply foldl_ext_in. intros a' sym _.
  unfold root_exported.
  destruct ((sym_file sym =? pf.1)%nat && is_exported sym); [|done].
  apply enqueue_symbol_actions.
Qed.

Lemma root_named_actions ctx r :
  root_named ctx r = foldl run_root_action r (scan_named ctx).
Proof.
  unfold root_named, scan_named. rewrite foldl_bind. simpl.
  rewrite <- enqueue_symbol_actions. apply foldl_ext_in.
  intros; apply enqueue_symbol_actions.
Qed.

Lemma root_cies_actions ctx r :
  root_cies ctx r = foldl run_root_action r (scan_cies ctx).
Proof.
  unfold root_cies, scan_cies. rewrite foldl_bind.
  apply foldl_ext_in. intros a f _. rewrite foldl_bind.
  apply foldl_ext_in. intros a' cie _. by rewrite foldl_bind.
Qed.

Lemma collect_root_set_actions ctx st :
  collect_root_set ctx st = foldl run_root_action (st, []) (root_actions ctx).
Proof.
  unfold collect_root_set, root_actions. rewrite !foldl_app.
  by rewrite root_cies_actions, root_named_actions, root_exports_actions,
    root_sections_actions.
Qed.

(** What a sequence of writes leaves behind; [l] holds the sections it
    accepted. *)
Lemma run_root_actions_spec acts st rs :
  ∃ l, (foldl run_root_action (st, rs) acts).2 = rs ++ l ∧
       accepted (foldl run_root_action (st, rs) acts).1 = accepted st ++ l ∧
       mext st (foldl run_root_action (st, rs) acts).1 ∧
       (∀ p, p ∈ l → EnqueueSection (Some p) ∈ acts ∧ p ∈ is_alive st) ∧
       (∀ p, p ∈ is_visited (foldl run_root_action (st, rs) acts).1 ↔
             p ∈ is_visited st ∨ StoreVisited p ∈ acts ∨ p ∈ l) ∧
       (∀ p, EnqueueSection (Some p) ∈ acts → p ∈ is_alive st →
             p ∈ is_visited (foldl run_root_action (st, rs) acts).1) ∧
       (∀ f, f ∈ frag_is_alive (foldl run_root_action (st, rs) acts).1 ↔
             f ∈ frag_is_alive st ∨ FragAlive f ∈ acts).
Proof.
  induction acts as [|a acts IH] using rev_ind.
  { exists []. simpl. rewrite !app_nil_r. do 3 (split; [done|]).
    split; [by intros p ?%elem_of_nil|]. split; [|split].
    - intros p. rewrite !elem_of_nil. tauto.
    - by intros p ?%elem_of_nil.
    - intros f. rewrite elem_of_nil. tauto. }
  destruct IH as (l & Hrs & Hacc & Hx & Hl & Hv & He & Hf).
  rewrite foldl_app. simpl.
  destruct (foldl run_root_action (st, rs) acts) as [st1 rs1].
  simpl in *. subst rs1.
  assert (is_alive st1 = is_alive st) as Hal by apply Hx.
  destruct a as [q|isec|g]; simpl.
  - exists l. do 2 (split; [done|]).
    split; [etrans; [done|apply mext_visited_store_true]|].
    split; [|split; [|split]].
    + intros p Hp. rewrite elem_of_app. destruct (Hl p Hp). auto.
    + intros p. rewrite elem_of_union, elem_of_singleton, Hv, elem_of_app,
        list_elem_of_singleton. split; [|intros [?|[[?|[= ->]]|?]]; auto].
      intros [-> |[?|[?|?]]]; auto.
    + intros p [Hp|[=]%list_elem_of_singleton]%elem_of_app Hpa.
      apply elem_of_union_r. by apply He.
    + intros f. rewrite Hf, elem_of_app, list_elem_of_singleton.
      split; [intros [?|?]; auto|intros [?|[?|[=]]]; auto].
  - unfold enqueue_section; simpl.
    destruct (mark_section_spec isec st1)
      as [(p & -> & Hpa & Hpv & ->)|[Hr ->]]; simpl.
    + exists (l ++ [p]). rewrite !app_assoc, Hacc.
      do 2 (split; [done|]).
      split; [etrans; [done|by apply mext_accept]|].
      split; [|split; [|split]].
      * intros p' [Hp| ->%list_elem_of_singleton]%elem_of_app.
        -- destruct (Hl p' Hp). split; [|done]. apply elem_of_app; auto.
        -- split; [|congruence]. apply elem_of_app. right.
           by apply list_elem_of_singleton.
      * intros p'. rewrite elem_of_union, elem_of_singleton, Hv, !elem_of_app,
          !list_elem_of_singleton.
        split; [intros [-> |[?|[?|?]]]; auto|].
        intros [?|[[?|[=]]|[?| ->]]]; auto.
      * intros p' [Hp|[= ->]%list_elem_of_singleton]%elem_of_app Hpa'.
        -- apply elem_of_union_r. by apply He.
        -- apply elem_of_union_l. by apply elem_of_singleton.
      * intros f. rewrite Hf, elem_of_app, list_elem_of_singleton.
        split; [intros [?|?]; auto|intros [?|[?|[=]]]; auto].
    + exists l. do 3 (split; [done|]). split; [|split; [|split]].
      * intros p Hp. rewrite elem_of_app. destruct (Hl p Hp). auto.
      * intros p. rewrite Hv, elem_of_app, list_elem_of_singleton.
        split; [intros [?|[?|?]]; auto|intros [?|[[?|[=]]|?]]; auto].
      * intros p [Hp|[= <-]%list_elem_of_singleton]%elem_of_app Hpa;
          [by apply He|].
        destruct Hr as [[=]|(? & [= <-] & [Hn|?])]; [|done].
        by rewrite Hal in Hn.
      * intros f. rewrite Hf, elem_of_app, list_elem_of_singleton.
        split; [intros [?|?]; auto|intros [?|[?|[=]]]; auto].
  - exists l. do 2 (split; [done|]).
    split; [etrans; [done|apply mext_frag_set_alive]|].
    split; [|split; [|split]].
    + intros p Hp. rewrite elem_of_app. destruct (Hl p Hp). auto.
    + intros p. rewrite Hv, elem_of_app, list_elem_of_singleton.
      split; [intros [?|[?|?]]; auto|intros [?|[[?|[=]]|?]]; auto].
    + intros p [Hp|[=]%list_elem_of_singleton]%elem_of_app Hpa.
      by apply He.
    + intros f. rewrite elem_of_union, elem_of_singleton, Hf, elem_of_app,
        list_elem_of_singleton.
      split; [intros [-> |[?|?]]; auto|intros [?|[?|[= ->]]]; auto].
Qed.

Lemma elem_of_root_candidates ctx p :
  p ∈ root_candidates ctx ↔ EnqueueSection (Some p) ∈ root_actions ctx.
Proof.
  unfold root_candidates. rewrite list_elem_of_omap. split.
  - intros ([| |] & ? & ?); by simplify_eq.
  - intros ?. by exists (EnqueueSection (Some p)).
Qed.

Lemma or_iff_both (A A' B B' : Prop) :
  (A ↔ A') → (B ↔ B') → (A ∨ B ↔ A' ∨ B').
Proof. tauto. Qed.

Lemma enqueue_symbol_actions_elem p sym :
  EnqueueSection (Some p) ∈ symbol_actions sym ↔
  sym_frag sym = None ∧ input_section sym = Some p.
Proof.
  unfold symbol_actions.
  destruct (sym_frag sym); rewrite list_elem_of_singleton;
    split; [done|by intros [? _]|by intros [= <-]|by intros [_ ->]].
Qed.

(** The root candidates, scan by scan: the sections of the files that are
    initializers, finalizers or notes; the sections of the exported symbols
    of each file; the sections of the entry symbol and of the symbols named
    undefined; the sections the CIEs refer to. *)
Lemma root_candidates_scans ctx p :
  p ∈ root_candidates ctx ↔
  (listed ctx p ∧
   ∃ s, get_isec ctx p = Some s ∧
        is_init_fini s || (sh_type (shdr s) =? SHT_NOTE) = true) ∨
  (∃ fi f sym, objs ctx !! fi = Some f ∧ sym ∈ symbols f ∧
               sym_file sym = fi ∧ is_exported sym = true ∧
               sym_frag sym = None ∧ input_section sym = Some p) ∨
  (∃ nm, (nm = entry (arg ctx) ∨ nm ∈ undefined (arg ctx)) ∧
         sym_frag (intern ctx nm) = None ∧
         input_section (intern ctx nm) = Some p) ∨
  (∃ f cie rel, f ∈ objs ctx ∧ cie ∈ cies f ∧ rel ∈ cie_rels cie ∧
                input_section (eh_sym rel) = Some p).
Proof.
  rewrite elem_of_root_candidates. unfold root_actions.
  rewrite !elem_of_app.
  apply or_iff_both; [|apply or_iff_both; [|apply or_iff_both]].
  - unfold scan_sections, listed. rewrite list_elem_of_bind. split.
    + intros (slot & Hin & Hslot). unfold section_actions in Hin.
      destruct slot as [q|]; [|by apply elem_of_nil in Hin].
      destruct (get_isec ctx q) as [s|] eqn:Hq;
        [|by apply elem_of_nil in Hin].
      apply elem_of_app in Hin as [Hin|Hin].
      * destruct (lacks_alloc (shdr s));
          [by apply list_elem_of_singleton in Hin
          |by apply elem_of_nil in Hin].
      * destruct (is_init_fini s || (sh_type (shdr s) =? SHT_NOTE)) eqn:Hr;
          [|by apply elem_of_nil in Hin].
        apply list_elem_of_singleton in Hin as [= ->]. eauto.
    + intros [Hl (s & Hs & Hr)]. exists (Some p). split; [|done].
      unfold section_actions. rewrite Hs, Hr. apply elem_of_app. right.
      by apply list_elem_of_singleton.
  - unfold scan_exports, exported_actions. rewrite list_elem_of_bind. split.
    + intros ([fi f] & (sym & Hin & Hsym)%list_elem_of_bind
              & (i & y & [= -> ->] & Hf)%elem_of_lookup_imap).
      simpl in *.
      destruct ((sym_file sym =? i)%nat && is_exported sym) eqn:Hc;
        [|by apply elem_of_nil in Hin].
      apply andb_true_iff in Hc as [Hfi%Nat.eqb_eq He].
      apply enqueue_symbol_actions_elem in Hin as [? ?].
      exists i, y, sym. done.
    + intros (fi & f & sym & Hf & Hsym & Hfi & He & Hfr & Hp).
      exists (fi, f). split; [|by apply elem_of_lookup_imap; eauto].
      apply list_elem_of_bind. exists sym. split; [|done]. simpl.
      rewrite He, Hfi, Nat.eqb_refl. simpl.
      by apply enqueue_symbol_actions_elem.
  - unfold scan_named. rewrite list_elem_of_bind. split.
    + intros (nm & [? ?]%enqueue_symbol_actions_elem & Hnm%elem_of_cons).
      eauto.
    + intros (nm & Hnm & ? & ?). exists nm.
      split; [by apply enqueue_symbol_actions_elem|by apply elem_of_cons].
  - unfold scan_cies. rewrite list_elem_of_bind. split.
    + intros (f & (cie & (rel & [= ->]%list_elem_of_singleton & ?)
                     %list_elem_of_bind & ?)%list_elem_of_bind & ?).
      eauto 8.
    + intros (f & cie & rel & ? & ? & ? & Hp). exists f. split; [|done].
      apply list_elem_of_bind. exists cie. split; [|done].
      apply list_elem_of_bind. exists rel. split; [|done].
      rewrite Hp. by apply list_elem_of_singleton.
Qed.

Lemma foldl_invariant {A B} (I : A → Prop) (f : A → B → A) (l : list B)
    (a : A) :
  (∀ a x, x ∈ l → I a → I (f a x)) → I a → I (foldl f a l).
Proof.
  revert a; induction l as [|x l IH]; intros a H Ha; simpl; [done|].
  apply IH; [intros; apply H; [by right|done]|]. apply H; [by left|done].
Qed.

Lemma store_visited_scan_sections ctx p :
  StoreVisited p ∈ scan_sections ctx ↔ listed ctx p ∧ nonalloc ctx p.
Proof.
  unfold scan_sections, listed, nonalloc. rewrite list_elem_of_bind. split.
  - intros (slot & Hin & Hslot). unfold section_actions in Hin.
    destruct slot as [q|]; [|by apply elem_of_nil in Hin].
    destruct (get_isec ctx q) as [s|] eqn:Hq; [|by apply elem_of_nil in Hin].
    apply elem_of_app in Hin as [Hin|Hin].
    + destruct (lacks_alloc (shdr s)) eqn:Hl; [|by apply elem_of_nil in Hin].
      apply list_elem_of_singleton in Hin as [= ->]. eauto.
    + destruct (is_init_fini s || (sh_type (shdr s) =? SHT_NOTE));
        [by apply list_elem_of_singleton in Hin|by apply elem_of_nil in Hin].
  - intros [Hl (s & Hs & Hna)]. exists (Some p). split; [|done].
    unfold section_actions. rewrite Hs, Hna. apply elem_of_app. left.
    by apply list_elem_of_singleton.
Qed.

Lemma store_visited_symbol_actions p sym :
  StoreVisited p ∉ symbol_actions sym.
Proof.
  unfold symbol_actions.
  by destruct (sym_frag sym); intros ?%list_elem_of_singleton.
Qed.

Lemma store_visited_root_actions ctx p :
  StoreVisited p ∈ root_actions ctx ↔ listed ctx p ∧ nonalloc ctx p.
Proof.
  rewrite <- store_visited_scan_sections. unfold root_actions.
  rewrite !elem_of_app. split; [|by auto].
  intros [?|[Hin|[Hin|Hin]]]; [done|exfalso..].
  - apply list_elem_of_bind in Hin as (pf & Hin & _).
    apply list_elem_of_bind in Hin as (sym & Hin & _).
    destruct ((sym_file sym =? pf.1)%nat && is_exported sym);
      [by apply store_visited_symbol_actions in Hin
      |by apply elem_of_nil in Hin].
  - apply list_elem_of_bind in Hin as (nm & Hin & _).
    by apply store_visited_symbol_actions in Hin.
  - apply list_elem_of_bind in Hin as (f & Hin & _).
    apply list_elem_of_bind in Hin as (cie & Hin & _).
    apply list_elem_of_bind in Hin as (rel & Hin & _).
    by apply list_elem_of_singleton in Hin.
Qed.

(** The scan of the sections accepts no section that lacks ALLOC: line 101
    has it visited before line 104 asks. *)
Lemma root_sections_avoid ctx r :
  (∀ p, p ∈ r.2 → ¬ nonalloc ctx p) →
  ∀ p, p ∈ (root_sections ctx r).2 → ¬ nonalloc ctx p.
Proof.
  unfold root_sections. apply (foldl_invariant
    (fun r : Roots => ∀ p, p ∈ r.2 → ¬ nonalloc ctx p)).
  intros r1 f _. apply (foldl_invariant
    (fun r : Roots => ∀ p, p ∈ r.2 → ¬ nonalloc ctx p)). clear.
  intros [st rs] slot _ Hr. unfold root_section; simpl in *.
  destruct slot as [q|]; [|done].
  destruct (get_isec ctx q) as [s|] eqn:Hq; [|done].
  destruct (is_init_fini s || (sh_type (shdr s) =? SHT_NOTE));
    [|by destruct (lacks_alloc (shdr s))].
  unfold enqueue_section.
  destruct (lacks_alloc (shdr s)) eqn:Hl; simpl.
  - destruct (mark_section_spec (Some q) (visited_store_true q st))
      as [(? & [= <-] & _ & Hnv & ->)|[_ ->]]; [|done].
    exfalso. apply Hnv. simpl. apply elem_of_union_l.
    by apply elem_of_singleton.
  - destruct (mark_section_spec (Some q) st)
      as [(? & [= <-] & _ & _ & ->)|[_ ->]]; [|done]. simpl.
    intros p [?| ->%list_elem_of_singleton]%elem_of_app; [by auto|].
    intros (s' & Hs' & Hl'). congruence.
Qed.

Lemma collect_root_set_spec ctx st :
  mext st (collect_root_set ctx st).1 ∧
  accepted (collect_root_set ctx st).1
    = accepted st ++ (collect_root_set ctx st).2 ∧
  NoDup (collect_root_set ctx st).2 ∧
  (∀ p, p ∈ (collect_root_set ctx st).2 →
        p ∈ root_candidates ctx ∧ p ∈ is_alive st ∧ ¬ exempt ctx st p) ∧
  (∀ p, p ∈ is_visited (collect_root_set ctx st).1 ↔
        exempt ctx st p ∨ p ∈ (collect_root_set ctx st).2) ∧
  (∀ p, p ∈ root_candidates ctx → p ∈ is_alive st →
        p ∈ is_visited (collect_root_set ctx st).1) ∧
  (∀ f, f ∈ frag_is_alive (collect_root_set ctx st).1 ↔
        f ∈ frag_is_alive st ∨ FragAlive f ∈ root_actions ctx).
Proof.
  assert (∀ p, p ∈ (collect_root_set ctx st).2 →
               ¬ (listed ctx p ∧ nonalloc ctx p)) as Havoid.
  { unfold collect_root_set.
    rewrite root_cies_actions, root_named_actions, root_exports_actions,
      <- !foldl_app.
    pose proof (root_sections_avoid ctx (st, [])) as HA.
    rewrite root_sections_actions in *.
    destruct (run_root_actions_spec (scan_sections ctx) st [])
      as (lA & HrA & _ & _ & _ & HvA & _).
    destruct (foldl run_root_action (st, []) (scan_sections ctx))
      as [stA rsA]. simpl in *. subst rsA.
    destruct (run_root_actions_spec
                (scan_exports ctx ++ scan_named ctx ++ scan_cies ctx) stA lA)
      as (lB & -> & HaccB & HxB & _).
    intros p [?|Hp]%elem_of_app [Hl Hn].
    { by apply (HA ltac:(by intros ? ?%elem_of_nil) p). }
    destruct (mext_accepted_new _ _ _ HxB HaccB) as [_ Hnew].
    destruct (Hnew p Hp) as [Hnv _]. apply Hnv, HvA. right. left.
    by apply store_visited_scan_sections. }
  rewrite collect_root_set_actions in *.
  destruct (run_root_actions_spec (root_actions ctx) st [])
    as (l & Hrs & Hacc & Hx & Hl & Hv & He & Hf).
  destruct (foldl run_root_action (st, []) (root_actions ctx)) as [st1 rs].
  simpl in *. subst rs.
  destruct (mext_accepted_new _ _ _ Hx Hacc) as [Hnd Hnew].
  do 3 (split; [done|]). split; [|split; [|split]].
  - intros p Hp. destruct (Hl p Hp). split; [by apply elem_of_root_candidates|].
    split; [done|]. intros [?|?]; [by apply (Hnew p Hp)|by apply (Havoid p)].
  - intros p. rewrite Hv, store_visited_root_actions. unfold exempt. tauto.
  - intros p Hp. by apply He, elem_of_root_candidates.
  - done.
Qed.

(** ** The fragment pre-marker *)

Lemma mark_nonalloc_fragments_flat ctx st :
  mark_nonalloc_fragments ctx st
  = foldl (mark_nonalloc_fragment ctx) st (objs ctx ≫= fragments).
Proof. unfold mark_nonalloc_fragments. by rewrite foldl_bind. Qed.

Lemma mark_nonalloc_fragments_spec ctx st :
  is_alive (mark_nonalloc_fragments ctx st) = is_alive st ∧
  is_visited (mark_nonalloc_fragments ctx st) = is_visited st ∧
  counter (mark_nonalloc_fragments ctx st) = counter st ∧
  sync_out (mark_nonalloc_fragments ctx st) = sync_out st ∧
  accepted (mark_nonalloc_fragments ctx st) = accepted st ∧
  ∀ f, f ∈ frag_is_alive (mark_nonalloc_fragments ctx st) ↔
       f ∈ frag_is_alive st ∨ nonalloc_frag ctx f.
Proof.
  rewrite mark_nonalloc_fragments_flat. unfold nonalloc_frag.
  induction (objs ctx ≫= fragments) as [|g l IH] using rev_ind.
  { do 5 (split; [done|]). intros f. rewrite elem_of_nil. tauto. }
  rewrite foldl_app. simpl.
  destruct IH as (Ha & Hv & Hc & Ho & Hacc & Hf).
  unfold mark_nonalloc_fragment at 1 3 5 7 9 11.
  destruct (get_frag ctx g) as [fr|] eqn:Hg.
  - destruct (lacks_alloc (out_shdr (output_section fr))) eqn:Hl.
    + do 5 (split; [done|]). intros f. simpl.
      rewrite elem_of_union, elem_of_singleton, Hf, elem_of_app,
        list_elem_of_singleton.
      split; [intros [->|[?|[? ?]]]; eauto 6|].
      intros [?|[[?| ->] ?]]; auto.
    + do 5 (split; [done|]). intros f.
      rewrite Hf, elem_of_app, list_elem_of_singleton.
      split; [intros [?|[? ?]]; auto|].
      intros [?|[[?| ->] (fr' & ? & ?)]];
        [by left|right; eauto|congruence].
  - do 5 (split; [done|]). intros f.
    rewrite Hf, elem_of_app, list_elem_of_singleton.
    split; [intros [?|[? ?]]; auto|].
    intros [?|[[?| ->] (fr' & ? & ?)]];
      [by left|right; eauto|congruence].
Qed.

Lemma mark_nonalloc_fragments_mext ctx st :
  mext st (mark_nonalloc_fragments ctx st).
Proof.
  destruct (mark_nonalloc_fragments_spec ctx st)
    as (Ha & Hv & Hc & Ho & Hacc & Hf).
  apply mext_no_accept; try done.
  - by rewrite Hv.
  - intros f ?. apply Hf. by left.
Qed.

(** ** The sweeper *)

#[local] Arguments sweep_section : simpl never.

Lemma sweep_flat ctx st :
  sweep ctx st = foldl (sweep_section ctx) st (listed_slots ctx).
Proof. unfold sweep, listed_slots. by rewrite foldl_bind. Qed.

(** What one turn of the loop of the sweeper does. *)
Lemma sweep_section_spec ctx st p :
  (p ∈ is_alive st ∧ p ∉ is_visited st ∧
   sweep_section ctx st (Some p) =
     {| is_alive := is_alive st ∖ {[p]}; is_visited := is_visited st;
        frag_is_alive := frag_is_alive st; counter := counter st + 1;
        sync_out := sync_out st ++ removal_lines ctx [p];
        accepted := accepted st |})
  ∨ (¬ (p ∈ is_alive st ∧ p ∉ is_visited st) ∧
     sweep_section ctx st (Some p) = st).
Proof.
  unfold sweep_section, removal_lines.
  do 2 case_bool_decide; simpl; try (right; split; [tauto|done]).
  left. do 2 (split; [done|]).
  destruct (print_gc_sections (arg ctx)); simpl; [done|].
  by rewrite app_nil_r.
Qed.

(** What the loop of the sweeper does over the slots [l]; [killed] holds the
    sections it kills, in the order of the kills. *)
Lemma sweep_slots_spec ctx l : ∀ st,
  ∃ killed,
    NoDup killed ∧
    (∀ p, p ∈ killed ↔ Some p ∈ l ∧ p ∈ is_alive st ∧ p ∉ is_visited st) ∧
    foldl (sweep_section ctx) st l =
      {| is_alive := is_alive st ∖ list_to_set killed;
         is_visited := is_visited st;
         frag_is_alive := frag_is_alive st;
         counter := counter st + Z.of_nat (length killed);
         sync_out := sync_out st ++ removal_lines ctx killed;
         accepted := accepted st |}.
Proof.
  induction l as [|slot l IH]; intros st; simpl.
  { exists []. split; [constructor|]. split.
    - intros p. rewrite !elem_of_nil. tauto.
    - apply state_eq; simpl; try done.
      + apply set_eq. intros x.
        rewrite elem_of_difference, elem_of_empty. tauto.
      + lia.
      + unfold removal_lines. destruct (print_gc_sections (arg ctx));
          simpl; by rewrite app_nil_r. }
  destruct slot as [p|].
  2: { change (sweep_section ctx st None) with st.
       destruct (IH st) as (killed & Hnd & Hk & ->). exists killed.
       split; [done|]. split; [|done]. intros p. rewrite Hk, elem_of_cons.
       split; [tauto|]. intros [[[=]|?] ?]; tauto. }
  destruct (sweep_section_spec ctx st p) as [(Ha & Hv & ->)|[Hn ->]].
  - match goal with |- context [foldl _ ?s l] => destruct (IH s)
      as (killed & Hnd & Hk & ->) end. simpl in *.
    exists (p :: killed). split; [|split].
    + constructor; [|done]. rewrite Hk, elem_of_difference, elem_of_singleton.
      tauto.
    + intros q. rewrite !elem_of_cons, Hk, elem_of_difference,
        elem_of_singleton.
      destruct (decide (q = p)) as [->|Hne]; [tauto|].
      split; [tauto|]. intros [[[=]|?] ?]; [done|tauto].
    + apply state_eq; simpl; try done.
      * apply set_eq. intros x.
        rewrite !elem_of_difference, elem_of_union, elem_of_singleton. tauto.
      * lia.
      * unfold removal_lines. destruct (print_gc_sections (arg ctx)); simpl;
          [by rewrite <- app_assoc|by rewrite !app_nil_r].
  - destruct (IH st) as (killed & Hnd & Hk & ->). exists killed.
    split; [done|]. split; [|done]. intros q. rewrite Hk, elem_of_cons.
    split; [tauto|]. intros [[[= ->]|?] ?]; tauto.
Qed.

Lemma sweep_spec ctx st :
  ∃ killed,
    NoDup killed ∧
    (∀ p, p ∈ killed ↔ listed ctx p ∧ p ∈ is_alive st ∧ p ∉ is_visited st) ∧
    sweep ctx st =
      {| is_alive := is_alive st ∖ list_to_set killed;
         is_visited := is_visited st;
         frag_is_alive := frag_is_alive st;
         counter := counter st + Z.of_nat (length killed);
         sync_out := sync_out st ++ removal_lines ctx killed;
         accepted := accepted st |}.
Proof. rewrite sweep_flat. apply sweep_slots_spec. Qed.

(** ** The collector as a whole *)

(** The sections the marker has to visit are the eligible sections that the
    root candidates reach through eligible sections. *)
Lemma toured_reachable ctx st p :
  toured ctx (collect_root_set ctx st).1 (collect_root_set ctx st).2 p ↔
  reachable ctx (eligible ctx st) (root_candidates ctx) p.
Proof.
  destruct (collect_root_set_spec ctx st)
    as ((Hal & _) & _ & _ & Hroots & Hv & Hcand & _).
  destruct (collect_root_set ctx st) as [st1 roots]. simpl in *.
  assert (∀ r, r ∈ roots →
               reachable ctx (eligible ctx st) (root_candidates ctx) r)
    as Hroot.
  { intros r Hr. destruct (Hroots r Hr) as (? & ? & ?).
    by apply reachable_root. }
  assert (∀ b, markable st1 b → eligible ctx st b) as Hok.
  { intros b [Hb Hnv]. split; [by rewrite <- Hal|].
    intros He. apply Hnv, Hv. by left. }
  split.
  - intros [Hp|Hp]; [by apply Hroot|].
    induction Hp as [r (q & ? & ?)%list_elem_of_bind ?|a b _ IH ? ?].
    + apply (reachable_edge _ _ _ q); auto.
    + apply (reachable_edge _ _ _ a); auto.
  - assert (∀ a b, toured ctx st1 roots a → b ∈ succs ctx a →
                   eligible ctx st b → toured ctx st1 roots b) as Hstep.
    { intros a b Ha Hb [Hb1 Hb2].
      destruct (decide (b ∈ roots)) as [?|Hnr]; [by left|right].
      apply (toured_succ ctx st1 roots a); [done|done|].
      split; [by rewrite Hal|]. intros [?|?]%Hv; done. }
    induction 1 as [c Hc [Hc1 Hc2]|a b _ IH Hb Hok'].
    + left. destruct (proj1 (Hv c) (Hcand c Hc Hc1)); done.
    + by apply (Hstep a b).
Qed.

(** What the collector has done when the marker is through and the sweeper
    is to start: the state [st2]. *)
Lemma gc_sections_bound_marked bound ctx st :
  ∃ st2,
    gc_sections_bound bound ctx st = Some (sweep ctx st2) ∧
    mext st st2 ∧
    (∀ p, p ∈ is_visited st2 ↔
          exempt ctx st p ∨
          reachable ctx (eligible ctx st) (root_candidates ctx) p) ∧
    (∀ p, p ∈ root_candidates ctx → p ∈ is_alive st → p ∈ is_visited st2) ∧
    (∀ f, f ∈ frag_is_alive st2 ↔
          f ∈ frag_is_alive st ∨ nonalloc_frag ctx f ∨
          FragAlive f ∈ root_actions ctx ∨
          ∃ a, reachable ctx (eligible ctx st) (root_candidates ctx) a ∧
               f ∈ frag_succs ctx a).
Proof.
  unfold gc_sections_bound.
  pose proof (mark_nonalloc_fragments_mext ctx st) as Hx0.
  destruct (mark_nonalloc_fragments_spec ctx st)
    as (Ha0 & Hv0 & _ & _ & _ & Hf0).
  set (st0 := mark_nonalloc_fragments ctx st) in *.
  assert (∀ p, exempt ctx st0 p ↔ exempt ctx st p) as Hex.
  { intros p. unfold exempt. by rewrite Hv0. }
  assert (∀ p, reachable ctx (eligible ctx st0) (root_candidates ctx) p ↔
               reachable ctx (eligible ctx st) (root_candidates ctx) p)
    as Hre.
  { assert (∀ p, eligible ctx st0 p ↔ eligible ctx st p) as Hel.
    { intros p. unfold eligible. by rewrite Ha0, Hex. }
    intros p. split; induction 1 as [r ? ?|a b _ IH ? ?];
      try (by apply reachable_root; [|apply Hel]);
      by apply (reachable_edge _ _ _ a); [| |apply Hel]. }
  pose proof (toured_reachable ctx st0) as Htour.
  destruct (collect_root_set_spec ctx st0)
    as (Hx1 & _ & _ & Hroots & Hv1 & Hcand & Hf1).
  destruct (collect_root_set ctx st0) as [st1 roots]. simpl in *.
  destruct (mark_bound_spec ctx st1 roots bound)
    as (st2 & -> & Hx2 & Hv2 & Hf2).
  exists st2. split; [done|]. split; [by do 2 (etrans; [done|])|].
  split; [|split].
  - intros p. rewrite Hv2, Hv1, <- Hex, <- Hre, <- Htour. unfold toured. tauto.
  - intros p Hp Hal. destruct Hx2 as (_ & Hv & _). apply Hv, Hcand; [done|].
    by rewrite Ha0.
  - intros f. rewrite Hf2, Hf1, Hf0. split.
    + intros [[[?|?]|?]|(a & Ha & ?)]; auto.
      do 3 right. exists a. split; [|done]. by apply Hre, Htour.
    + intros [?|[?|[?|(a & Ha & ?)]]]; auto.
      right. exists a. split; [|done]. by apply Htour, Hre.
Qed.

Lemma gc_sections_bound_returns bound ctx st :
  is_Some (gc_sections_bound bound ctx st).
Proof.
  destruct (gc_sections_bound_marked bound ctx st) as (st2 & -> & _). eauto.
Qed.

Lemma reachable_nil ctx ok p : ¬ reachable ctx ok [] p.
Proof. induction 1 as [r Hr _|]; [by apply elem_of_nil in Hr|done]. Qed.

Lemma reachable_ok_iff ctx ok ok' roots p :
  (∀ q, ok q ↔ ok' q) →
  reachable ctx ok roots p ↔ reachable ctx ok' roots p.
Proof.
  intros H. split; induction 1 as [r ? ?|a b _ IH ? ?];
    try (by apply reachable_root; [|apply H]);
    by apply (reachable_edge _ _ _ a); [| |apply H].
Qed.

(** What the collector returns: the sweeper has run on the state [st2] the
    marker left, in which a section is visited iff it is exempt or an
    eligible section the root candidates reach. *)
Lemma gc_sections_bound_spec bound ctx st :
  ∃ st',
    gc_sections_bound bound ctx st = Some st' ∧
    (∀ p, p ∈ is_visited st' ↔
          exempt ctx st p ∨
          reachable ctx (eligible ctx st) (root_candidates ctx) p) ∧
    (∀ p, p ∈ is_alive st' ↔
          p ∈ is_alive st ∧ (listed ctx p → p ∈ is_visited st')) ∧
    (∀ p, p ∈ root_candidates ctx → p ∈ is_alive st → p ∈ is_visited st') ∧
    (∀ f, f ∈ frag_is_alive st' ↔
          f ∈ frag_is_alive st ∨ nonalloc_frag ctx f ∨
          FragAlive f ∈ root_actions ctx ∨
          ∃ a, reachable ctx (eligible ctx st) (root_candidates ctx) a ∧
               f ∈ frag_succs ctx a) ∧
    ∃ l, accepted st' = accepted st ++ l ∧ NoDup l.
Proof.
  destruct (gc_sections_bound_marked bound ctx st)
    as (st2 & -> & Hx & Hv & Hc & Hf).
  destruct (sweep_spec ctx st2) as (killed & _ & Hk & ->).
  eexists. split; [done|]. simpl. split; [done|]. split; [|split; [done|]].
  - intros p. rewrite elem_of_difference, elem_of_list_to_set, Hk.
    destruct Hx as (-> & _).
    destruct (decide (p ∈ is_visited st2)); tauto.
  - split; [done|]. destruct Hx as (_ & _ & _ & _ & _ & l & ? & ? & _). eauto.
Qed.

(** ** The properties the specification states *)

(** The collector on the scenarios. *)
Example gc_sections_s2 :
  gc_sections Scenario.ctx_s2 (Scenario.state0 {[0%nat; 1%nat]})
  = Some {| is_alive := {[0%nat]}; is_visited := {[0%nat]};
            frag_is_alive := ∅; counter := 1;
            sync_out := [RemovingUnusedSection 1]; accepted := [0%nat] |}.
Proof. by vm_compute. Qed.

Example gc_sections_demo :
  gc_sections Scenario.ctx_demo
    (Scenario.state0 {[0%nat; 1%nat; 2%nat; 3%nat; 4%nat]})
  = Some {| is_alive := {[0%nat; 1%nat; 2%nat; 3%nat]};
            is_visited := {[0%nat; 1%nat; 2%nat; 3%nat]};
            frag_is_alive := {[0%nat]}; counter := 1;
            sync_out := [RemovingUnusedSection 4];
            accepted := [0%nat; 2%nat; 1%nat] |}.
Proof. by vm_compute. Qed.

(** S6 of the spec: the section without ALLOC is kept, though no root
    reaches it, and is visited without having been accepted. *)
Example gc_sections_s6 :
  gc_sections Scenario.ctx_s6 (Scenario.state0 {[0%nat]})
  = Some {| is_alive := {[0%nat]}; is_visited := {[0%nat]};
            frag_is_alive := ∅; counter := 0; sync_out := [];
            accepted := [] |}.
Proof. by vm_compute. Qed.

(** S6 with the section discarded before the collector runs. *)
Example gc_sections_s6_dead :
  gc_sections Scenario.ctx_s6 (Scenario.state0 ∅)
  = Some {| is_alive := ∅; is_visited := {[0%nat]};
            frag_is_alive := ∅; counter := 0; sync_out := [];
            accepted := [] |}.
Proof. by vm_compute. Qed.

(** The target of [rels[0]] of an FDE is not marked through the FDE: section
    1 is killed, section 2 is kept. *)
Example gc_sections_fde :
  gc_sections Scenario.ctx_fde (Scenario.state0 {[0%nat; 1%nat; 2%nat]})
  = Some {| is_alive := {[0%nat; 2%nat]}; is_visited := {[0%nat; 2%nat]};
            frag_is_alive := ∅; counter := 1;
            sync_out := [RemovingUnusedSection 1];
            accepted := [0%nat; 2%nat] |}.
Proof. by vm_compute. Qed.

(** C2. The sweeper kills a section iff, when the loop reaches it, the
    section is alive and not visited; a kill clears [is_alive], adds one to
    the counter, and prints one line iff [print_gc_sections] is set; any other
    section is passed over without effect.  Over the whole loop the sections
    killed are the sections of the files that are alive and not visited when
    the sweeper starts, each killed once, counted once, and printed in the
    order of the kills iff the flag is set. *)
Theorem C2_sweep_kills_alive_unvisited (ctx : Context) (st : State) :
  (∀ p,
     (p ∈ is_alive st ∧ p ∉ is_visited st ∧
      sweep_section ctx st (Some p) =
        {| is_alive := is_alive st ∖ {[p]}; is_visited := is_visited st;
           frag_is_alive := frag_is_alive st; counter := counter st + 1;
           sync_out := sync_out st ++
             (if print_gc_sections (arg ctx)
              then [RemovingUnusedSection p] else []);
           accepted := accepted st |})
     ∨ (¬ (p ∈ is_alive st ∧ p ∉ is_visited st) ∧
        sweep_section ctx st (Some p) = st)) ∧
  sweep_section ctx st None = st ∧
  ∃ killed,
    NoDup killed ∧
    (∀ p, p ∈ killed ↔ listed ctx p ∧ p ∈ is_alive st ∧ p ∉ is_visited st) ∧
    sweep ctx st =
      {| is_alive := is_alive st ∖ list_to_set killed;
         is_visited := is_visited st;
         frag_is_alive := frag_is_alive st;
         counter := counter st + Z.of_nat (length killed);
         sync_out := sync_out st ++
           (if print_gc_sections (arg ctx)
            then RemovingUnusedSection <$> killed else []);
         accepted := accepted st |}.
Proof.
  split; [|split; [done|apply sweep_spec]].
  intros p. destruct (sweep_section_spec ctx st p) as [(? & ? & ->)|[? ->]];
    [left|right]; repeat split; done.
Qed.

(** C3. [mark_section] returns true iff the reference is non-empty, the
    section is alive, and the exchange on [is_visited] found false; a
    reference it returns true for is appended to the log of the accepted
    sections, and nothing else is.  Over a whole run of the collector the
    sections accepted are distinct, and so are the roots. *)
Theorem C3_mark_section_accepts_once (ctx : Context) (st : State) :
  (∀ isec,
     ((mark_section isec st).1 = true ↔
      ∃ p, isec = Some p ∧ p ∈ is_alive st ∧ p ∉ is_visited st) ∧
     accepted (mark_section isec st).2
     = accepted st ++
       (if (mark_section isec st).1 then option_list isec else [])) ∧
  (∃ st' l, gc_sections ctx st = Some st' ∧
            accepted st' = accepted st ++ l ∧ NoDup l) ∧
  NoDup (collect_root_set ctx st).2.
Proof.
  split; [|split].
  - intros isec.
    destruct (mark_section_spec isec st) as [(p & -> & ? & ? & ->)|[Hr ->]];
      simpl.
    + split; [|done]. split; [eauto|done].
    + rewrite app_nil_r. split; [|done]. split; [done|].
      intros (p & -> & ? & ?). destruct Hr as [[=]|(? & [= <-] & [?|?])]; done.
  - destruct (gc_sections_bound_spec 3 ctx st)
      as (st' & ? & _ & _ & _ & _ & l & ? & ?). eauto.
  - apply collect_root_set_spec.
Qed.

(** What the FDE loop leaves behind when run over the relocations [rels];
    [l] holds the sections it accepted. *)
Lemma visit_eh_relocs_spec rels st fd :
  ∃ l,
    (foldl visit_eh_reloc (st, fd) rels).2 = fd ++ l ∧
    accepted (foldl visit_eh_reloc (st, fd) rels).1 = accepted st ++ l ∧
    is_visited (foldl visit_eh_reloc (st, fd) rels).1
    = is_visited st ∪ list_to_set l ∧
    (∀ t, t ∈ l ↔
          (∃ rel, rel ∈ rels ∧ input_section (eh_sym rel) = Some t) ∧
          t ∈ is_alive st ∧ t ∉ is_visited st) ∧
    is_alive (foldl visit_eh_reloc (st, fd) rels).1 = is_alive st ∧
    frag_is_alive (foldl visit_eh_reloc (st, fd) rels).1 = frag_is_alive st.
Proof.
  induction rels as [|rel rels IH] using rev_ind.
  { exists []. simpl. rewrite !app_nil_r. do 2 (split; [done|]).
    split; [|split; [|done]].
    - apply set_eq. intros x. rewrite elem_of_union, elem_of_empty. tauto.
    - intros t. rewrite elem_of_nil. split; [done|].
      by intros [(rel & ?%elem_of_nil & _) _]. }
  destruct IH as (l & Hfd & Hacc & Hv & Hl & Ha & Hf).
  rewrite foldl_app. simpl.
  destruct (foldl visit_eh_reloc (st, fd) rels) as [st1 fd1].
  simpl in *. subst fd1. unfold visit_eh_reloc; simpl.
  assert (∀ t, (∃ r, r ∈ rels ++ [rel] ∧ input_section (eh_sym r) = Some t) ↔
               (∃ r, r ∈ rels ∧ input_section (eh_sym r) = Some t) ∨
               input_section (eh_sym rel) = Some t) as Hsplit.
  { intros t. split.
    - intros (r & [?| ->%list_elem_of_singleton]%elem_of_app & ?); eauto.
    - intros [(r & ? & ?)|?]; [exists r|exists rel];
        (split; [|done]); apply elem_of_app; [by left|right].
      by apply list_elem_of_singleton. }
  destruct (input_section (eh_sym rel)) as [t|] eqn:Ht.
  2: { exists l. do 3 (split; [done|]). split; [|done].
       intros t. rewrite Hl, Hsplit. split; [tauto|].
       intros [[?|[=]] ?]; tauto. }
  destruct (mark_section_spec (Some t) st1)
    as [(? & [= <-] & Hta & Htv & ->)|[Hr ->]]; simpl.
  - exists (l ++ [t]). rewrite !app_assoc, Hacc, Hv.
    do 2 (split; [done|]). split; [|split; [|done]].
    + apply set_eq. intros x.
      rewrite !elem_of_union, !elem_of_list_to_set, elem_of_app,
        elem_of_singleton, list_elem_of_singleton.
      tauto.
    + intros t'. rewrite elem_of_app, list_elem_of_singleton, Hl, Hsplit.
      rewrite Hv, elem_of_union, elem_of_list_to_set, Hl in Htv.
      rewrite Ha in Hta. split.
      * intros [?| ->]; [tauto|]. split; [by right|]. split; [done|].
        intros ?. apply Htv. by left.
      * intros [[?|[= ->]] [? ?]]; [tauto|by right].
  - exists l. do 3 (split; [done|]). split; [|done].
    intros t'. rewrite Hl, Hsplit. split; [tauto|].
    intros [[?|[= ->]] [? Hnv]]; [tauto|].
    destruct Hr as [[=]|(? & [= <-] & [Hn|Hin])].
    + by rewrite Ha in Hn.
    + rewrite Hv, elem_of_union, elem_of_list_to_set, Hl in Hin.
      destruct Hin as [?|?]; [done|tauto].
Qed.

Lemma reachable_roots_iff ctx ok roots roots' p :
  (∀ r, r ∈ roots ↔ r ∈ roots') →
  reachable ctx ok roots p ↔ reachable ctx ok roots' p.
Proof.
  intros H. split; induction 1 as [r ? ?|a b _ IH ? ?];
    try (by apply reachable_root; [apply H|]);
    by apply (reachable_edge _ _ _ a).
Qed.

(** The fragment loop of a visit writes to the fragments only. *)
Lemma visit_rel_fragments_frame s st :
  is_alive (visit_rel_fragments s st) = is_alive st ∧
  is_visited (visit_rel_fragments s st) = is_visited st ∧
  accepted (visit_rel_fragments s st) = accepted st.
Proof.
  unfold visit_rel_fragments.
  apply (foldl_invariant (fun st' =>
    is_alive st' = is_alive st ∧ is_visited st' = is_visited st ∧
    accepted st' = accepted st)); [|done].
  by intros st' ref _ H.
Qed.

Lemma foldl_feeder_parametric {B} (f : Work → B → Work) (l : list B) :
  feeder_parametric f →
  ∀ st fd, foldl f (st, fd) l
           = ((foldl f (st, []) l).1, fd ++ (foldl f (st, []) l).2).
Proof.
  intros Hf. induction l as [|x l IH]; intros st fd; simpl.
  { by rewrite app_nil_r. }
  rewrite (Hf st fd x). destruct (f (st, []) x) as [s1 a1]. simpl.
  rewrite (IH s1 (fd ++ a1)), (IH s1 a1). simpl. by rewrite app_assoc.
Qed.

Lemma visit_eh_reloc_feeder_parametric : feeder_parametric visit_eh_reloc.
Proof.
  intros st fd rel. unfold visit_eh_reloc. simpl.
  destruct (input_section (eh_sym rel)) as [p|]; [|by rewrite app_nil_r].
  destruct (mark_section (Some p) st) as [[] st']; simpl;
    by rewrite ?app_nil_r.
Qed.

Lemma visit_rel_feeder_parametric ctx d s :
  (∀ t, feeder_parametric (fun w (_ : unit) => d t w)) →
  feeder_parametric (visit_rel ctx d s).
Proof.
  intros Hd st fd rel. unfold visit_rel. simpl.
  destruct (get_symbol ctx s (r_sym rel)) as [sym|]; [|by rewrite app_nil_r].
  destruct (sym_frag sym); [by rewrite app_nil_r|].
  destruct (mark_section (input_section sym) st) as [[] st']; simpl;
    [|by rewrite app_nil_r].
  destruct (input_section sym) as [t|]; [|by rewrite app_nil_r].
  apply (Hd t st' fd tt).
Qed.

(** The flags a visit leaves do not depend on the feeder it is given, which
    it only appends to. *)
Lemma visit_levels_feeder ctx n : ∀ isec st fd,
  visit_levels ctx n isec (st, fd)
  = ((visit_levels ctx n isec (st, [])).1,
     fd ++ (visit_levels ctx n isec (st, [])).2).
Proof.
  assert (∀ d, (∀ t, feeder_parametric (fun w (_ : unit) => d t w)) →
            ∀ isec st fd,
              match get_isec ctx isec with
              | None => (st, fd)
              | Some s =>
                  foldl (visit_rel ctx d s)
                    (visit_fdes s (visit_rel_fragments s st, fd)) (rels s)
              end
              = ((match get_isec ctx isec with
                  | None => (st, [])
                  | Some s =>
                      foldl (visit_rel ctx d s)
                        (visit_fdes s (visit_rel_fragments s st, []))
                        (rels s)
                  end).1,
                 fd ++ (match get_isec ctx isec with
                        | None => (st, [])
                        | Some s =>
                            foldl (visit_rel ctx d s)
                              (visit_fdes s (visit_rel_fragments s st, []))
                              (rels s)
                        end).2)) as Hbody.
  { intros d Hd isec st fd.
    destruct (get_isec ctx isec) as [s|]; [|by rewrite app_nil_r].
    rewrite !visit_fdes_flat.
    rewrite (foldl_feeder_parametric visit_eh_reloc _
               visit_eh_reloc_feeder_parametric _ fd).
    destruct (foldl visit_eh_reloc (visit_rel_fragments s st, [])
                (fde_relocs s)) as [s2 a2]. simpl.
    rewrite (foldl_feeder_parametric _ _
               (visit_rel_feeder_parametric ctx d s Hd) s2 (fd ++ a2)).
    rewrite (foldl_feeder_parametric _ _
               (visit_rel_feeder_parametric ctx d s Hd) s2 a2).
    simpl. by rewrite app_assoc. }
  induction n as [|n IH]; intros isec st fd;
    rewrite !(visit_levels_eq ctx _ isec); simpl.
  - apply Hbody. by intros t st' fd' [].
  - apply Hbody. intros t st' fd' []. apply IH.
Qed.

(** What a visit of [isec] does to the flags of the sections: every edge of
    [isec] is served, and a section is visited afterwards only if it was
    before or the edges lead to it from [isec] through sections that were
    alive and not visited. *)
Lemma visit_levels_edges ctx n isec st fd :
  closed_at ctx (visit_levels ctx n isec (st, fd)).1 isec ∧
  ∀ t, t ∈ is_visited (visit_levels ctx n isec (st, fd)).1 →
       t ∈ is_visited st ∨
       reachable ctx (fun q => q ∈ is_alive st ∧ q ∉ is_visited st)
         (succs ctx isec) t.
Proof.
  rewrite visit_levels_feeder. simpl.
  pose proof (mark_inv_init ctx st [isec]) as Hi. split.
  - by apply (visit_levels_closed ctx st [isec] n isec st [] []).
  - pose proof (visit_levels_inv ctx st [isec] n isec st [] [] Hi)
      as (_ & Hs & _).
    intros t Ht. destruct (Hs t Ht) as [?|Hm]; [by left|right].
    revert Hm. unfold marked.
    apply reachable_roots_iff. intros r. rewrite list_elem_of_bind. split.
    + intros ?. exists isec. split; [done|]. by apply list_elem_of_singleton.
    + by intros (q & ? & ->%list_elem_of_singleton).
Qed.

(** C5. When the marker visits a section, the FDE loop runs between the
    loop over the fragment references and the loop over the relocations, and
    of the relocations of an FDE it marks the targets of [rels[1..]], and
    only those; what [rels[0]] refers to plays no part.  So after the FDE
    loop a section is visited iff it was visited before, or it is alive and
    some relocation of index 1 or above of some FDE of the section refers to
    it, and the sections newly visited are those the loop accepted and handed
    to the feeder.  After the visit every alive target of such a relocation
    is visited; a section is visited then only if it was before or the FDE
    edges over [rels[1..]] and the relocation edges lead to it from the
    visited section through sections that were alive and not visited; and no
    section changes [is_alive]. *)
Theorem C5_fde_marks_rels_from_1 (ctx : Context) (isec : isec_ptr)
    (s : InputSection) (st : State) (fd : Feeder) (depth : Z) :
  get_isec ctx isec = Some s →
  ∃ w',
    w' = visit ctx isec (st, fd) depth ∧
    w' = foldl (visit_rel ctx
                  (fun t w => if depth <? 3
                              then visit ctx t w (depth + 1)
                              else feeder_add t w) s)
           (visit_fdes s (visit_rel_fragments s st, fd)) (rels s) ∧
    (∀ w r0 r0' rest,
       visit_fde w {| fde_rels := r0 :: rest |}
       = visit_fde w {| fde_rels := r0' :: rest |}) ∧
    (∀ t, t ∈ is_visited (visit_fdes s (visit_rel_fragments s st, fd)).1 ↔
          t ∈ is_visited st ∨
          (t ∈ is_alive st ∧
           ∃ fde rel, fde ∈ fdes s ∧ rel ∈ tail (fde_rels fde) ∧
                      input_section (eh_sym rel) = Some t)) ∧
    (∃ l, (visit_fdes s (visit_rel_fragments s st, fd)).2 = fd ++ l ∧
          accepted (visit_fdes s (visit_rel_fragments s st, fd)).1
          = accepted st ++ l ∧
          is_visited (visit_fdes s (visit_rel_fragments s st, fd)).1
          = is_visited st ∪ list_to_set l) ∧
    (∀ fde rel t, fde ∈ fdes s → rel ∈ tail (fde_rels fde) →
                  input_section (eh_sym rel) = Some t →
                  t ∈ is_alive st → t ∈ is_visited w'.1) ∧
    (∀ t, t ∈ is_visited w'.1 →
          t ∈ is_visited st ∨
          reachable ctx (fun q => q ∈ is_alive st ∧ q ∉ is_visited st)
            (fde_targets s ++ rel_targets ctx s) t) ∧
    is_alive w'.1 = is_alive st.
Proof.
  intros Hs. eexists. split; [done|].
  split; [unfold visit;
          by rewrite (visit_bound_unfold 3 ctx isec (st, fd) depth), Hs|].
  split; [done|].
  destruct (visit_rel_fragments_frame s st) as (Haf & Hvf & Haccf).
  destruct (visit_eh_relocs_spec (fde_relocs s) (visit_rel_fragments s st) fd)
    as (l & Hfd & Hacc & Hv & Hl & Ha & _).
  rewrite visit_fdes_flat. split; [|split; [exists l; by rewrite <- Hvf, <- Haccf|]].
  { intros t. rewrite Hv, elem_of_union, elem_of_list_to_set, Hl, Haf, Hvf.
    unfold fde_relocs. split.
    - intros [?|[(rel & (fde & ? & ?)%list_elem_of_bind & ?) [? ?]]];
        [by left|right]. split; [done|]. eauto.
    - intros [?|[? (fde & rel & ? & ? & ?)]]; [by left|].
      destruct (decide (t ∈ is_visited st)); [by left|right].
      split; [|done]. exists rel. split; [|done].
      apply list_elem_of_bind. eauto. }
  unfold visit, visit_bound.
  destruct (visit_levels_edges ctx (Z.to_nat (3 - depth)) isec st fd)
    as [[Hc _] Hsound].
  destruct (visit_levels_wext ctx (Z.to_nat (3 - depth)) isec (st, fd))
    as [(Hal & _) _]. simpl in Hal.
  split; [|split; [|done]].
  - intros fde rel t Hfde Hrel Ht Hta. apply Hc; [|by rewrite Hal].
    unfold succs. rewrite Hs. apply elem_of_app. left.
    apply elem_of_fde_targets. exists rel. split; [|done].
    apply list_elem_of_bind. eauto.
  - intros t Ht. destruct (Hsound t Ht) as [?|Hr]; [by left|right].
    unfold succs in Hr. by rewrite Hs in Hr.
Qed.

Lemma C5_fde_marks_rels_from_1_witness :
  get_isec Scenario.ctx_fde 0
  = Some {| file := 0; shdr := Scenario.text_shdr; name := ".text.start";
            rels := []; rel_fragments := [];
            fdes := [ {| fde_rels := [ {| eh_sym := Scenario.sym_of 1 |};
                                       {| eh_sym := Scenario.sym_of 2 |} ] |} ]
         |} ∧
  2%nat ∈ is_visited
            (visit Scenario.ctx_fde 0
               (Scenario.state0 {[0%nat; 1%nat; 2%nat]}, []) 0).1.
Proof.
  split; [reflexivity|].
  destruct (C5_fde_marks_rels_from_1 Scenario.ctx_fde 0 _
              (Scenario.state0 {[0%nat; 1%nat; 2%nat]}) [] 0 eq_refl)
    as (w' & -> & _ & _ & _ & _ & H & _).
  apply (H {| fde_rels := [ {| eh_sym := Scenario.sym_of 1 |};
                            {| eh_sym := Scenario.sym_of 2 |} ] |}
           {| eh_sym := Scenario.sym_of 2 |} 2%nat).
  - apply list_elem_of_singleton. reflexivity.
  - apply list_elem_of_singleton. reflexivity.
  - reflexivity.
  - apply (bool_decide_unpack _). by vm_compute.
Defined.

(** C6. When the marker visits a section, the loop over its relocations
    comes last, one turn for each relocation, and a turn resolves the symbol
    of the relocation.  If the symbol has a fragment, the turn sets the
    fragment alive and does nothing else: no section is marked, nothing
    reaches the feeder; the fragment is alive after the visit.  Only
    otherwise does the turn hand the section of the symbol to
    [mark_section], and only a section [mark_section] accepts is descended
    into, by lines 63-66; that section, if alive, is visited after the
    visit.  A section is visited after the visit only if it was before or
    the FDE edges and the relocation edges of the symbols without a fragment
    lead to it. *)
Theorem C6_relocation_edge (ctx : Context) (isec : isec_ptr)
    (s : InputSection) (st : State) (fd : Feeder) (depth : Z)
    (rel : ElfRela) (sym : Symbol) :
  get_isec ctx isec = Some s → rel ∈ rels s →
  get_symbol ctx s (r_sym rel) = Some sym →
  ∃ w' d,
    w' = visit ctx isec (st, fd) depth ∧
    d = (fun t w => if depth <? 3
                    then visit ctx t w (depth + 1)
                    else feeder_add t w) ∧
    w' = foldl (visit_rel ctx d s)
           (visit_fdes s (visit_rel_fragments s st, fd)) (rels s) ∧
    match sym_frag sym with
    | Some f =>
        (∀ st1 fd1,
           visit_rel ctx d s (st1, fd1) rel = (frag_set_alive f st1, fd1) ∧
           is_visited (visit_rel ctx d s (st1, fd1) rel).1 = is_visited st1 ∧
           accepted (visit_rel ctx d s (st1, fd1) rel).1 = accepted st1) ∧
        f ∈ frag_is_alive w'.1
    | None =>
        (∀ st1 fd1,
           visit_rel ctx d s (st1, fd1) rel =
             (if (mark_section (input_section sym) st1).1
              then match input_section sym with
                   | Some t =>
                       d t ((mark_section (input_section sym) st1).2, fd1)
                   | None => (st1, fd1)
                   end
              else (st1, fd1)) ∧
           frag_is_alive (mark_section (input_section sym) st1).2
           = frag_is_alive st1) ∧
        (∀ t, input_section sym = Some t → t ∈ is_alive st →
              t ∈ is_visited w'.1)
    end ∧
    (∀ t, t ∈ is_visited w'.1 →
          t ∈ is_visited st ∨
          reachable ctx (fun q => q ∈ is_alive st ∧ q ∉ is_visited st)
            (fde_targets s ++ rel_targets ctx s) t).
Proof.
  intros Hs Hrel Hsym. do 2 eexists. split; [done|]. split; [done|].
  split; [unfold visit;
          by rewrite (visit_bound_unfold 3 ctx isec (st, fd) depth), Hs|].
  unfold visit at 1 3 4, visit_bound.
  destruct (visit_levels_edges ctx (Z.to_nat (3 - depth)) isec st fd)
    as [[Hc Hcf] Hsound].
  destruct (visit_levels_wext ctx (Z.to_nat (3 - depth)) isec (st, fd))
    as [(Hal & _) _]. simpl in Hal.
  split.
  - destruct (sym_frag sym) as [f|] eqn:Hfr.
    + split.
      * intros st1 fd1. unfold visit_rel. rewrite Hsym, Hfr. done.
      * apply Hcf. unfold frag_succs. rewrite Hs. apply elem_of_app. right.
        apply elem_of_rel_frag_targets. eauto.
    + split.
      * intros st1 fd1. unfold visit_rel. rewrite Hsym, Hfr. simpl.
        destruct (mark_section_spec (input_section sym) st1)
          as [(p & -> & ? & ? & ->)|[? ->]]; simpl; done.
      * intros t Ht Hta. apply Hc; [|by rewrite Hal].
        unfold succs. rewrite Hs. apply elem_of_app. right.
        apply elem_of_rel_targets. eauto 6.
  - intros t Ht. destruct (Hsound t Ht) as [?|Hr]; [by left|right].
    unfold succs in Hr. by rewrite Hs in Hr.
Qed.

Lemma C6_relocation_edge_witness :
  get_isec Scenario.ctx_demo 0
  = Some {| file := 0; shdr := Scenario.text_shdr; name := ".text.start";
            rels := [ {| r_sym := 1 |}; {| r_sym := 2 |} ];
            rel_fragments := [];
            fdes := [ {| fde_rels := [ {| eh_sym := Scenario.sym_of 0 |};
                                       {| eh_sym := Scenario.sym_of 2 |} ] |} ]
         |} ∧
  {| r_sym := 2 |} ∈ [ {| r_sym := 1 |}; {| r_sym := 2 |} ] ∧
  0%nat ∈ frag_is_alive
            (visit Scenario.ctx_demo 0
               (Scenario.state0 {[0%nat; 1%nat; 2%nat]}, []) 0).1.
Proof.
  assert ({| r_sym := 2 |} ∈ [ {| r_sym := 1 |}; {| r_sym := 2 |} ]) as Hrel
    by (right; left).
  split; [reflexivity|]. split; [exact Hrel|].
  destruct (C6_relocation_edge Scenario.ctx_demo 0 _
              (Scenario.state0 {[0%nat; 1%nat; 2%nat]}) [] 0
              {| r_sym := 2 |} (Scenario.sym_of_frag 0) eq_refl Hrel eq_refl)
    as (w' & d & -> & _ & _ & [_ H] & _).
  exact H.
Defined.

(** C7. No resurrection: a section that is not alive on entry is not alive
    when the collector returns. *)
Theorem C7_no_resurrection (ctx : Context) (st : State) (p : isec_ptr) :
  p ∉ is_alive st →
  ∃ st', gc_sections ctx st = Some st' ∧ p ∉ is_alive st'.
Proof.
  intros Hp. destruct (gc_sections_bound_spec 3 ctx st)
    as (st' & ? & _ & Ha & _).
  exists st'. split; [done|]. rewrite Ha. tauto.
Qed.

Lemma C7_no_resurrection_witness :
  1%nat ∉ is_alive (Scenario.state0 {[0%nat; 2%nat; 3%nat; 4%nat]}) ∧
  ∃ st', gc_sections Scenario.ctx_demo
           (Scenario.state0 {[0%nat; 2%nat; 3%nat; 4%nat]}) = Some st' ∧
         1%nat ∉ is_alive st'.
Proof.
  assert (1%nat ∉ is_alive (Scenario.state0 {[0%nat; 2%nat; 3%nat; 4%nat]}))
    as H by (apply (bool_decide_unpack _); by vm_compute).
  split; [exact H|].
  exact (C7_no_resurrection Scenario.ctx_demo _ 1%nat H).
Defined.

(** C10. When the collector returns, every section of every file that is
    alive is visited. *)
Theorem C10_alive_implies_visited (ctx : Context) (st : State)
    (p : isec_ptr) :
  listed ctx p →
  ∃ st', gc_sections ctx st = Some st' ∧
         (p ∈ is_alive st' → p ∈ is_visited st').
Proof.
  intros Hp. destruct (gc_sections_bound_spec 3 ctx st)
    as (st' & ? & _ & Ha & _).
  exists st'. split; [done|]. rewrite Ha. tauto.
Qed.

Lemma C10_alive_implies_visited_witness :
  listed Scenario.ctx_demo 0 ∧
  ∃ st', gc_sections Scenario.ctx_demo
           (Scenario.state0 {[0%nat; 1%nat; 2%nat; 3%nat; 4%nat]}) = Some st' ∧
         0%nat ∈ is_alive st' ∧ 0%nat ∈ is_visited st'.
Proof.
  assert (listed Scenario.ctx_demo 0) as H
    by (unfold listed; apply (bool_decide_unpack _); by vm_compute).
  split; [exact H|].
  destruct (C10_alive_implies_visited Scenario.ctx_demo
              (Scenario.state0 {[0%nat; 1%nat; 2%nat; 3%nat; 4%nat]}) 0%nat H)
    as (st' & Hgc & Himp).
  exists st'. split; [exact Hgc|].
  assert (0%nat ∈ is_alive st') as Ha.
  { rewrite gc_sections_demo in Hgc. injection Hgc as <-.
    apply (bool_decide_unpack _). by vm_compute. }
  split; [exact Ha|exact (Himp Ha)].
Defined.

(** C4, as stated: every section of a file that lacks ALLOC is alive when
    the collector returns.  It fails for a section that was not alive on
    entry: S6 of the spec, the section discarded beforehand. *)
Lemma C4_nonalloc_alive_counterexample :
  ¬ (∀ ctx st p, listed ctx p → nonalloc ctx p →
       ∃ st', gc_sections ctx st = Some st' ∧ p ∈ is_alive st').
Proof.
  intros H.
  destruct (H Scenario.ctx_s6 (Scenario.state0 ∅) 0%nat) as (st' & Hgc & Hp).
  - unfold listed. apply (bool_decide_unpack _). by vm_compute.
  - eexists. split; reflexivity.
  - rewrite gc_sections_s6_dead in Hgc. injection Hgc as <-. simpl in Hp.
    by apply elem_of_empty in Hp.
Qed.

(** C4, amended. A section that lacks ALLOC and is alive on entry is alive
    when the collector returns. *)
Theorem C4_nonalloc_stays_alive (ctx : Context) (st : State) (p : isec_ptr) :
  nonalloc ctx p → p ∈ is_alive st →
  ∃ st', gc_sections ctx st = Some st' ∧ p ∈ is_alive st'.
Proof.
  intros Hn Hp. destruct (gc_sections_bound_spec 3 ctx st)
    as (st' & ? & Hv & Ha & _).
  exists st'. split; [done|]. apply Ha. split; [done|].
  intros Hl. apply Hv. left. by right.
Qed.

Lemma C4_nonalloc_stays_alive_witness :
  nonalloc Scenario.ctx_s6 0 ∧
  0%nat ∈ is_alive (Scenario.state0 {[0%nat]}) ∧
  ∃ st', gc_sections Scenario.ctx_s6 (Scenario.state0 {[0%nat]}) = Some st' ∧
         0%nat ∈ is_alive st'.
Proof.
  assert (nonalloc Scenario.ctx_s6 0) as Hn
    by (eexists; split; reflexivity).
  assert (0%nat ∈ is_alive (Scenario.state0 {[0%nat]})) as Hp
    by (apply (bool_decide_unpack _); by vm_compute).
  split; [exact Hn|]. split; [exact Hp|].
  exact (C4_nonalloc_stays_alive Scenario.ctx_s6 _ 0%nat Hn Hp).
Defined.

(** C1, as stated: a section is alive when the collector returns iff some
    root reaches it.  It fails for S6 of the spec: the section lacks ALLOC,
    so it stays alive, yet there is no root at all. *)
Lemma C1_alive_iff_reachable_counterexample :
  ¬ (∀ ctx st p, is_visited st = ∅ → listed ctx p →
       ∃ st', gc_sections ctx st = Some st' ∧
              (p ∈ is_alive st' ↔
               reachable ctx (fun _ => True) (root_candidates ctx) p)).
Proof.
  intros H.
  destruct (H Scenario.ctx_s6 (Scenario.state0 {[0%nat]}) 0%nat)
    as (st' & Hgc & Hp).
  - reflexivity.
  - unfold listed. apply (bool_decide_unpack _). by vm_compute.
  - rewrite gc_sections_s6 in Hgc. injection Hgc as <-.
    apply (reachable_nil Scenario.ctx_s6 (fun _ => True) 0%nat).
    change [] with (root_candidates Scenario.ctx_s6). apply Hp. simpl.
    by apply elem_of_singleton.
Qed.

(** C1, amended. With no section visited on entry, a section of a file is
    alive when the collector returns iff it was alive on entry and either
    lacks ALLOC or is reached from a root candidate along FDE edges and
    relocation edges through sections (the candidate and the section itself
    too) that were alive on entry and are not sections of a file that lack
    ALLOC. *)
Theorem C1_alive_iff_live_reachable (ctx : Context) (st : State)
    (p : isec_ptr) :
  is_visited st = ∅ → listed ctx p →
  ∃ st', gc_sections ctx st = Some st' ∧
         (p ∈ is_alive st' ↔
          p ∈ is_alive st ∧
          (nonalloc ctx p ∨
           reachable ctx
             (fun q => q ∈ is_alive st ∧ ¬ (listed ctx q ∧ nonalloc ctx q))
             (root_candidates ctx) p)).
Proof.
  intros Hv0 Hl. destruct (gc_sections_bound_spec 3 ctx st)
    as (st' & ? & Hv & Ha & _).
  exists st'. split; [done|]. rewrite Ha, Hv.
  assert (∀ q, exempt ctx st q ↔ listed ctx q ∧ nonalloc ctx q) as Hex.
  { intros q. unfold exempt. rewrite Hv0, elem_of_empty. tauto. }
  rewrite (reachable_ok_iff ctx (eligible ctx st)
             (fun q => q ∈ is_alive st ∧ ¬ (listed ctx q ∧ nonalloc ctx q))).
  - rewrite Hex. tauto.
  - intros q. unfold eligible. by rewrite Hex.
Qed.

Lemma C1_alive_iff_live_reachable_witness :
  is_visited (Scenario.state0 {[0%nat; 1%nat; 2%nat; 3%nat; 4%nat]}) = ∅ ∧
  listed Scenario.ctx_demo 1 ∧
  ∃ st', gc_sections Scenario.ctx_demo
           (Scenario.state0 {[0%nat; 1%nat; 2%nat; 3%nat; 4%nat]}) = Some st' ∧
         (1%nat ∈ is_alive st' ↔
          1%nat ∈ is_alive
                    (Scenario.state0 {[0%nat; 1%nat; 2%nat; 3%nat; 4%nat]}) ∧
          (nonalloc Scenario.ctx_demo 1 ∨
           reachable Scenario.ctx_demo
             (fun q =>
                q ∈ is_alive
                      (Scenario.state0 {[0%nat; 1%nat; 2%nat; 3%nat; 4%nat]}) ∧
                ¬ (listed Scenario.ctx_demo q ∧ nonalloc Scenario.ctx_demo q))
             (root_candidates Scenario.ctx_demo) 1)).
Proof.
  assert (listed Scenario.ctx_demo 1) as H
    by (unfold listed; apply (bool_decide_unpack _); by vm_compute).
  split; [reflexivity|]. split; [exact H|].
  exact (C1_alive_iff_live_reachable Scenario.ctx_demo
           (Scenario.state0 {[0%nat; 1%nat; 2%nat; 3%nat; 4%nat]}) 1%nat
           eq_refl H).
Defined.

Lemma mark_bound_nil bound ctx st : mark_bound bound ctx [] st = Some st.
Proof. unfold mark_bound. by destruct (mark_fuel [] st). Qed.

(** A state the collector leaves as it is: the sections of the files and
    the root candidates that are alive are visited, the sections of the
    files that lack ALLOC are visited, and the fragments the pre-marker and
    the root collector set alive are alive. *)
Lemma gc_sections_bound_stable bound ctx st :
  (∀ p, listed ctx p → p ∈ is_alive st → p ∈ is_visited st) →
  (∀ p, p ∈ root_candidates ctx → p ∈ is_alive st → p ∈ is_visited st) →
  (∀ p, listed ctx p → nonalloc ctx p → p ∈ is_visited st) →
  (∀ f, nonalloc_frag ctx f ∨ FragAlive f ∈ root_actions ctx →
        f ∈ frag_is_alive st) →
  gc_sections_bound bound ctx st = Some st.
Proof.
  intros F1 F2 F3 F4. unfold gc_sections_bound.
  assert (mark_nonalloc_fragments ctx st = st) as ->.
  { destruct (mark_nonalloc_fragments_spec ctx st)
      as (? & ? & ? & ? & ? & Hf).
    apply state_eq; try done. apply set_eq. intros f. rewrite Hf.
    split; [intros [?|?]; auto|by left]. }
  destruct (collect_root_set_spec ctx st)
    as (Hx & Hacc & _ & Hroots & Hv & _ & Hf).
  destruct (collect_root_set ctx st) as [st1 roots]. simpl in *.
  destruct roots as [|r roots].
  2: { destruct (Hroots r) as (? & ? & Hne); [by left|].
       exfalso. apply Hne. left. by apply F2. }
  assert (st1 = st) as ->.
  { destruct Hx as (? & _ & _ & ? & ? & _).
    apply state_eq; try done.
    - apply set_eq. intros p. rewrite Hv, elem_of_nil. unfold exempt.
      split; [intros [[?|[? ?]]|[]]; auto|by auto].
    - apply set_eq. intros f. rewrite Hf.
      split; [intros [?|?]; auto|by left].
    - by rewrite Hacc, app_nil_r. }
  rewrite mark_bound_nil.
  destruct (sweep_spec ctx st) as (killed & _ & Hk & ->).
  destruct killed as [|k killed].
  2: { destruct (proj1 (Hk k)) as (? & ? & Hnv); [by left|].
       exfalso. by apply Hnv, F1. }
  f_equal. apply state_eq; simpl; try done.
  - apply set_eq. intros p. rewrite elem_of_difference, elem_of_empty. tauto.
  - lia.
  - unfold removal_lines. destruct (print_gc_sections (arg ctx)); simpl;
      by rewrite app_nil_r.
Qed.

(** C8. Idempotence: run on the state it returned, the collector returns
    that state: no section changes [is_alive] or [is_visited], no fragment
    changes [is_alive], nothing is counted or printed. *)
Theorem C8_idempotent (ctx : Context) (st : State) :
  ∃ st1, gc_sections ctx st = Some st1 ∧ gc_sections ctx st1 = Some st1.
Proof.
  destruct (gc_sections_bound_spec 3 ctx st)
    as (st1 & Hgc & Hv & Ha & Hc & Hf & _).
  exists st1. split; [done|]. apply gc_sections_bound_stable.
  - intros p Hl Hp. apply Ha in Hp. tauto.
  - intros p Hp Hal. apply Ha in Hal as [? _]. by apply Hc.
  - intros p Hl Hn. apply Hv. left. by right.
  - intros f Hf'. apply Hf. tauto.
Qed.

(** C9. The depth bound of [visit] is a performance knob: marking with the
    bound 3 of the source and marking with the bound 0, where every accepted
    section goes to the feeder, both return, with the same sections visited
    and the same fragments alive. *)
Theorem C9_depth_bound_irrelevant (ctx : Context) (roots : list isec_ptr)
    (st : State) :
  ∃ st3 st0,
    mark ctx roots st = Some st3 ∧
    mark_bound 0 ctx roots st = Some st0 ∧
    is_visited st3 = is_visited st0 ∧
    frag_is_alive st3 = frag_is_alive st0 ∧
    is_alive st3 = is_alive st0.
Proof.
  destruct (mark_bound_spec ctx st roots 3) as (st3 & ? & Hx3 & Hv3 & Hf3).
  destruct (mark_bound_spec ctx st roots 0) as (st0 & ? & Hx0 & Hv0 & Hf0).
  exists st3, st0. do 2 (split; [done|]). split; [|split].
  - apply set_eq. intros p. by rewrite Hv3, Hv0.
  - apply set_eq. intros f. by rewrite Hf3, Hf0.
  - destruct Hx3 as (-> & _), Hx0 as (-> & _). done.
Qed.

(** ** More properties of the collector *)

(** X2. The fragment pre-marker sets alive the fragments of the files whose
    output section lacks ALLOC, and those only; it leaves every flag of
    every section, the counter and the output as they are. *)
Theorem X2_mark_nonalloc_fragments_effect (ctx : Context) (st : State) :
  (∀ f, f ∈ frag_is_alive (mark_nonalloc_fragments ctx st) ↔
        f ∈ frag_is_alive st ∨
        (∃ file fr, file ∈ objs ctx ∧ f ∈ fragments file ∧
                    get_frag ctx f = Some fr ∧
                    Z.land (sh_flags (out_shdr (output_section fr))) SHF_ALLOC
                    = 0)) ∧
  is_alive (mark_nonalloc_fragments ctx st) = is_alive st ∧
  is_visited (mark_nonalloc_fragments ctx st) = is_visited st ∧
  counter (mark_nonalloc_fragments ctx st) = counter st ∧
  sync_out (mark_nonalloc_fragments ctx st) = sync_out st.
Proof.
  destruct (mark_nonalloc_fragments_spec ctx st)
    as (Ha & Hv & Hc & Ho & _ & Hf).
  split; [|done]. intros f. rewrite Hf. unfold nonalloc_frag, lacks_alloc.
  apply or_iff_both; [done|]. rewrite list_elem_of_bind. split.
  - intros [(file & ? & ?) (fr & ? & ?%Z.eqb_eq)]. eauto 8.
  - intros (file & fr & ? & ? & ? & ?%Z.eqb_eq). eauto 8.
Qed.

(** X3. The fragment pre-marker is idempotent. *)
Theorem X3_mark_nonalloc_fragments_idempotent (ctx : Context) (st : State) :
  mark_nonalloc_fragments ctx (mark_nonalloc_fragments ctx st)
  = mark_nonalloc_fragments ctx st.
Proof.
  destruct (mark_nonalloc_fragments_spec ctx st)
    as (_ & _ & _ & _ & _ & Hf).
  destruct (mark_nonalloc_fragments_spec ctx
              (mark_nonalloc_fragments ctx st))
    as (Ha & Hv & Hc & Ho & Hacc & Hf').
  apply state_eq; try done. apply set_eq. intros f. rewrite Hf', Hf. tauto.
Qed.

(** X4. The sweeper leaves a state as it is iff no section of a file is
    alive and not visited in it; so the sweeper run a second time changes
    nothing. *)
Theorem X4_sweep_fixpoint (ctx : Context) (st : State) :
  (sweep ctx st = st ↔
   ∀ p, listed ctx p → p ∈ is_alive st → p ∈ is_visited st) ∧
  sweep ctx (sweep ctx st) = sweep ctx st.
Proof.
  assert (∀ st, sweep ctx st = st ↔
                ∀ p, listed ctx p → p ∈ is_alive st → p ∈ is_visited st)
    as Hfix.
  { clear st. intros st.
    destruct (sweep_spec ctx st) as (killed & _ & Hk & Hs). split.
    - intros Heq p Hl Ha. rewrite Heq in Hs.
      apply (f_equal counter) in Hs. simpl in Hs.
      destruct killed as [|k killed]; [|simpl in Hs; lia].
      destruct (decide (p ∈ is_visited st)) as [|Hnv]; [done|].
      assert (p ∈ []) as Hin by (apply Hk; done). by apply elem_of_nil in Hin.
    - intros H. destruct killed as [|k killed].
      + rewrite Hs. apply state_eq; simpl; try done.
        * apply set_eq. intros p.
          rewrite elem_of_difference, elem_of_empty. tauto.
        * lia.
        * unfold removal_lines. destruct (print_gc_sections (arg ctx));
            simpl; by rewrite app_nil_r.
      + destruct (proj1 (Hk k)) as (Hl & Ha & Hnv); [by left|].
        exfalso. by apply Hnv, H. }
  split; [apply Hfix|]. apply Hfix.
  destruct (sweep_spec ctx st) as (killed & _ & Hk & ->). simpl.
  intros p Hl [Ha Hnk]%elem_of_difference.
  destruct (decide (p ∈ is_visited st)) as [|Hnv]; [done|].
  exfalso. apply Hnk, elem_of_list_to_set, Hk. done.
Qed.

(** X5. The collector never clears [is_visited] and never sets a fragment
    dead: the sections visited and the fragments alive on entry are so when
    it returns. *)
Theorem X5_visited_and_fragments_grow (ctx : Context) (st : State) :
  ∃ st', gc_sections ctx st = Some st' ∧
         is_visited st ⊆ is_visited st' ∧
         frag_is_alive st ⊆ frag_is_alive st'.
Proof.
  destruct (gc_sections_bound_spec 3 ctx st)
    as (st' & ? & Hv & _ & _ & Hf & _).
  exists st'. split; [done|]. split.
  - intros p Hp. apply Hv. left. by left.
  - intros f Hp. apply Hf. by left.
Qed.

(** X6. Root liveness: a section that one of the scans of the root collector
    hands to [enqueue_section] and that is alive on entry is alive and
    visited when the collector returns. *)
Theorem X6_roots_survive (ctx : Context) (st : State) (p : isec_ptr) :
  p ∈ root_candidates ctx → p ∈ is_alive st →
  ∃ st', gc_sections ctx st = Some st' ∧
         p ∈ is_alive st' ∧ p ∈ is_visited st'.
Proof.
  intros Hc Ha. destruct (gc_sections_bound_spec 3 ctx st)
    as (st' & ? & _ & Hal & Hcv & _).
  exists st'. split; [done|]. split; [|by apply Hcv].
  apply Hal. split; [done|]. intros _. by apply Hcv.
Qed.

Lemma X6_roots_survive_witness :
  0%nat ∈ root_candidates Scenario.ctx_demo ∧
  0%nat ∈ is_alive (Scenario.state0 {[0%nat; 1%nat]}) ∧
  ∃ st', gc_sections Scenario.ctx_demo (Scenario.state0 {[0%nat; 1%nat]})
         = Some st' ∧
         0%nat ∈ is_alive st' ∧ 0%nat ∈ is_visited st'.
Proof.
  assert (0%nat ∈ root_candidates Scenario.ctx_demo) as Hc
    by (apply (bool_decide_unpack _); by vm_compute).
  assert (0%nat ∈ is_alive (Scenario.state0 {[0%nat; 1%nat]})) as Ha
    by (apply (bool_decide_unpack _); by vm_compute).
  split; [exact Hc|]. split; [exact Ha|].
  exact (X6_roots_survive Scenario.ctx_demo _ 0%nat Hc Ha).
Defined.

(** X7. The books of the collector: the sections alive on entry and dead on
    return are sections of the files, the counter grows by their number, and
    the output grows by one line for each, in the order of the kills, iff
    [print_gc_sections] is set. *)
Theorem X7_killed_sections_counted (ctx : Context) (st : State) :
  ∃ st' killed,
    gc_sections ctx st = Some st' ∧
    NoDup killed ∧
    (∀ p, p ∈ killed ↔ p ∈ is_alive st ∧ p ∉ is_alive st') ∧
    (∀ p, p ∈ killed → listed ctx p ∧ p ∉ is_visited st') ∧
    counter st' = counter st + Z.of_nat (length killed) ∧
    sync_out st' = sync_out st ++
      (if print_gc_sections (arg ctx)
       then RemovingUnusedSection <$> killed else []).
Proof.
  destruct (gc_sections_bound_marked 3 ctx st) as (st2 & Hgc & Hx & _).
  destruct (sweep_spec ctx st2) as (killed & Hnd & Hk & Hs).
  exists (sweep ctx st2), killed. split; [done|]. split; [done|].
  destruct Hx as (Ha & _ & _ & Hc & Ho & _).
  rewrite Hs; simpl. rewrite Ha, Hc, Ho. split; [|split; [|done]].
  - intros p. rewrite elem_of_difference, elem_of_list_to_set.
    destruct (decide (p ∈ killed)) as [Hin|Hnin]; [|tauto].
    apply Hk in Hin as Hp. rewrite Ha in Hp. tauto.
  - intros p Hp. apply Hk in Hp. tauto.
Qed.

(** X8. The vector of roots that [collect_root_set] returns holds, each
    once, the sections that one of its scans names (an initializer, finalizer
    or note section of a file; the section of an exported symbol of a file,
    of the entry symbol or of a symbol named undefined, the symbol having no
    fragment; a section a CIE refers to) and that are alive, not visited
    beforehand and not sections of a file that lack ALLOC. *)
Theorem X8_root_vector (ctx : Context) (st : State) :
  NoDup (collect_root_set ctx st).2 ∧
  ∀ p, p ∈ (collect_root_set ctx st).2 ↔
       ((listed ctx p ∧
         ∃ s, get_isec ctx p = Some s ∧
              is_init_fini s || (sh_type (shdr s) =? SHT_NOTE) = true) ∨
        (∃ fi f sym, objs ctx !! fi = Some f ∧ sym ∈ symbols f ∧
                     sym_file sym = fi ∧ is_exported sym = true ∧
                     sym_frag sym = None ∧ input_section sym = Some p) ∨
        (∃ nm, (nm = entry (arg ctx) ∨ nm ∈ undefined (arg ctx)) ∧
               sym_frag (intern ctx nm) = None ∧
               input_section (intern ctx nm) = Some p) ∨
        (∃ f cie rel, f ∈ objs ctx ∧ cie ∈ cies f ∧ rel ∈ cie_rels cie ∧
                      input_section (eh_sym rel) = Some p)) ∧
       p ∈ is_alive st ∧ p ∉ is_visited st ∧
       ¬ (listed ctx p ∧ nonalloc ctx p).
Proof.
  destruct (collect_root_set_spec ctx st)
    as (_ & _ & Hnd & Hroots & Hv & Hcand & _).
  split; [done|]. intros p. rewrite <- root_candidates_scans. split.
  - intros Hp. destruct (Hroots p Hp) as (? & ? & Hne).
    unfold exempt in Hne. tauto.
  - intros (Hc & Ha & Hnv & Hnl).
    destruct (proj1 (Hv p) (Hcand p Hc Ha)) as [[?|?]|?]; done.
Qed.

Lemma frag_alive_symbol_actions f sym :
  FragAlive f ∈ symbol_actions sym ↔ sym_frag sym = Some f.
Proof.
  unfold symbol_actions.
  destruct (sym_frag sym); rewrite list_elem_of_singleton;
    split; congruence.
Qed.

(** The fragments the root collector sets alive, scan by scan. *)
Lemma root_frags_scans ctx f :
  FragAlive f ∈ root_actions ctx ↔
  (∃ fi file sym, objs ctx !! fi = Some file ∧ sym ∈ symbols file ∧
                  sym_file sym = fi ∧ is_exported sym = true ∧
                  sym_frag sym = Some f) ∨
  (∃ nm, (nm = entry (arg ctx) ∨ nm ∈ undefined (arg ctx)) ∧
         sym_frag (intern ctx nm) = Some f).
Proof.
  unfold root_actions. rewrite !elem_of_app.
  assert (FragAlive f ∉ scan_sections ctx) as HA.
  { unfold scan_sections. intros (slot & Hin & _)%list_elem_of_bind.
    unfold section_actions in Hin.
    destruct slot as [q|]; [|by apply elem_of_nil in Hin].
    destruct (get_isec ctx q) as [s|]; [|by apply elem_of_nil in Hin].
    apply elem_of_app in Hin as [Hin|Hin].
    - destruct (lacks_alloc (shdr s));
        [by apply list_elem_of_singleton in Hin|by apply elem_of_nil in Hin].
    - destruct (is_init_fini s || (sh_type (shdr s) =? SHT_NOTE));
        [by apply list_elem_of_singleton in Hin|by apply elem_of_nil in Hin]. }
  assert (FragAlive f ∉ scan_cies ctx) as HD.
  { unfold scan_cies. intros (? & Hin & _)%list_elem_of_bind.
    apply list_elem_of_bind in Hin as (? & Hin & _).
    apply list_elem_of_bind in Hin as (? & Hin & _).
    by apply list_elem_of_singleton in Hin. }
  assert (FragAlive f ∈ scan_exports ctx ↔
          ∃ fi file sym, objs ctx !! fi = Some file ∧ sym ∈ symbols file ∧
                         sym_file sym = fi ∧ is_exported sym = true ∧
                         sym_frag sym = Some f) as HB.
  { unfold scan_exports, exported_actions. rewrite list_elem_of_bind. split.
    - intros ([fi file] & (sym & Hin & Hsym)%list_elem_of_bind
              & (i & y & [= -> ->] & Hf)%elem_of_lookup_imap).
      simpl in *.
      destruct ((sym_file sym =? i)%nat && is_exported sym) eqn:Hc;
        [|by apply elem_of_nil in Hin].
      apply andb_true_iff in Hc as [Hfi%Nat.eqb_eq He].
      apply frag_alive_symbol_actions in Hin. exists i, y, sym. done.
    - intros (fi & file & sym & Hf & Hsym & Hfi & He & Hfr).
      exists (fi, file). split; [|by apply elem_of_lookup_imap; eauto].
      apply list_elem_of_bind. exists sym. split; [|done]. simpl.
      rewrite He, Hfi, Nat.eqb_refl. simpl.
      by apply frag_alive_symbol_actions. }
  assert (FragAlive f ∈ scan_named ctx ↔
          ∃ nm, (nm = entry (arg ctx) ∨ nm ∈ undefined (arg ctx)) ∧
                sym_frag (intern ctx nm) = Some f) as HC.
  { unfold scan_named. rewrite list_elem_of_bind. split.
    - intros (nm & ?%frag_alive_symbol_actions & Hnm%elem_of_cons). eauto.
    - intros (nm & Hnm & ?). exists nm.
      split; [by apply frag_alive_symbol_actions|by apply elem_of_cons]. }
  rewrite HB, HC. tauto.
Qed.

(** X9. A fragment is alive when the collector returns iff it was alive on
    entry, or it is a fragment of a file whose output section lacks ALLOC,
    or the fragment of an exported symbol of a file, of the entry symbol or
    of a symbol named undefined, or a fragment one edge away (a fragment
    reference, or a relocation whose symbol has the fragment) from a section
    that the root candidates reach through eligible sections. *)
Theorem X9_fragment_liveness (ctx : Context) (st : State) :
  ∃ st', gc_sections ctx st = Some st' ∧
    ∀ f, f ∈ frag_is_alive st' ↔
         f ∈ frag_is_alive st ∨
         nonalloc_frag ctx f ∨
         (∃ fi file sym, objs ctx !! fi = Some file ∧ sym ∈ symbols file ∧
                         sym_file sym = fi ∧ is_exported sym = true ∧
                         sym_frag sym = Some f) ∨
         (∃ nm, (nm = entry (arg ctx) ∨ nm ∈ undefined (arg ctx)) ∧
                sym_frag (intern ctx nm) = Some f) ∨
         (∃ a s, reachable ctx (eligible ctx st) (root_candidates ctx) a ∧
                 get_isec ctx a = Some s ∧
                 ((∃ ref, ref ∈ rel_fragments s ∧ ref_frag ref = f) ∨
                  (∃ rel sym, rel ∈ rels s ∧
                              get_symbol ctx s (r_sym rel) = Some sym ∧
                              sym_frag sym = Some f))).
Proof.
  destruct (gc_sections_bound_spec 3 ctx st)
    as (st' & ? & _ & _ & _ & Hf & _).
  exists st'. split; [done|]. intros f. rewrite Hf, root_frags_scans.
  assert ((∃ a, reachable ctx (eligible ctx st) (root_candidates ctx) a ∧
                f ∈ frag_succs ctx a) ↔
          (∃ a s, reachable ctx (eligible ctx st) (root_candidates ctx) a ∧
                  get_isec ctx a = Some s ∧
                  ((∃ ref, ref ∈ rel_fragments s ∧ ref_frag ref = f) ∨
                   (∃ rel sym, rel ∈ rels s ∧
                               get_symbol ctx s (r_sym rel) = Some sym ∧
                               sym_frag sym = Some f)))) as ->; [|tauto].
  split.
  - intros (a & Ha & Hfa). unfold frag_succs in Hfa.
    destruct (get_isec ctx a) as [s|] eqn:Hs; [|by apply elem_of_nil in Hfa].
    exists a, s. do 2 (split; [done|]).
    apply elem_of_app in Hfa as [(ref & -> & ?)%list_elem_of_fmap|Hfa];
      [left; eauto|right]. by apply elem_of_rel_frag_targets.
  - intros (a & s & Ha & Hs & Hfa). exists a. split; [done|].
    unfold frag_succs. rewrite Hs. apply elem_of_app.
    destruct Hfa as [(ref & ? & <-)|Hfa];
      [left; by apply list_elem_of_fmap_2|right].
    by apply elem_of_rel_frag_targets.
Qed.

#[local] Arguments visit_levels_checked : simpl never.

Lemma visit_levels_checked_eq ctx n isec w :
  visit_levels_checked ctx n isec w =
  if bool_decide (isec ∈ is_visited w.1) then
    match get_isec ctx isec with
    | None => Some w
    | Some s =>
        foldl (fun ow rel =>
                 ow ≫= (fun w =>
                   visit_rel_checked ctx
                     (match n with
                      | O => fun t w => Some (feeder_add t w)
                      | S m => visit_levels_checked ctx m
                      end) s w rel))
              (Some (visit_fdes s (visit_rel_fragments s w.1, w.2))) (rels s)
    end
  else None.
Proof. by destruct n. Qed.

Lemma foldl_option_some {A B} (f : A → B → A) (g : A → B → option A)
    (l : list B) (a : A) :
  (∀ a x, g a x = Some (f a x)) →
  foldl (fun oa x => oa ≫= (fun a => g a x)) (Some a) l = Some (foldl f a l).
Proof.
  intros H. revert a. induction l as [|x l IH]; intros a; simpl; [done|].
  by rewrite H, IH.
Qed.

(** A section that [mark_section] accepted passes the assertion. *)
Lemma visit_rel_checked_some ctx d d' s w rel :
  (∀ t w, t ∈ is_visited w.1 → d' t w = Some (d t w)) →
  visit_rel_checked ctx d' s w rel = Some (visit_rel ctx d s w rel).
Proof.
  intros H. destruct w as [st fd]. unfold visit_rel_checked, visit_rel; simpl.
  destruct (get_symbol ctx s (r_sym rel)) as [sym|]; [|done].
  destruct (sym_frag sym); [done|].
  destruct (mark_section_spec (input_section sym) st)
    as [(p & -> & _ & _ & ->)|[_ ->]]; simpl; [|done].
  apply H. simpl. apply elem_of_union_l. by apply elem_of_singleton.
Qed.

Lemma visit_levels_checked_some ctx n : ∀ isec w,
  isec ∈ is_visited w.1 →
  visit_levels_checked ctx n isec w = Some (visit_levels ctx n isec w).
Proof.
  induction n as [|n IH]; intros isec w Hv;
    rewrite visit_levels_checked_eq, visit_levels_eq, bool_decide_true by done;
    (destruct (get_isec ctx isec) as [s|]; [|done]);
    apply foldl_option_some; intros a rel;
    by apply visit_rel_checked_some.
Qed.

(** The sections a visit hands to the feeder are visited. *)
Lemma visit_levels_feeder_visited ctx n : ∀ isec w,
  feeder_visited w → feeder_visited (visit_levels ctx n isec w).
Proof.
  assert (∀ p st fd, feeder_visited (st, fd) →
            feeder_visited
              (feeder_add p (log_accepted p (visited_store_true p st), fd)))
    as Hadd.
  { intros p st fd H t. simpl.
    intros [Ht| ->%list_elem_of_singleton]%elem_of_app.
    - apply elem_of_union_r. by apply H.
    - apply elem_of_union_l. by apply elem_of_singleton. }
  assert (∀ d, (∀ t w, t ∈ is_visited w.1 → feeder_visited w →
                       feeder_visited (d t w)) →
            ∀ isec w, feeder_visited w →
            feeder_visited
              match get_isec ctx isec with
              | None => w
              | Some s =>
                  foldl (visit_rel ctx d s)
                    (visit_fdes s (visit_rel_fragments s w.1, w.2)) (rels s)
              end) as Hbody.
  { intros d Hd isec [st fd] Hw. destruct (get_isec ctx isec) as [s|]; [|done].
    apply foldl_invariant.
    - intros [st1 fd1] rel _ H1. unfold visit_rel; simpl.
      destruct (get_symbol ctx s (r_sym rel)) as [sym|]; [|done].
      destruct (sym_frag sym); [done|].
      destruct (mark_section_spec (input_section sym) st1)
        as [(p & -> & _ & _ & ->)|[_ ->]]; simpl; [|done].
      apply Hd.
      + simpl. apply elem_of_union_l. by apply elem_of_singleton.
      + intros t Ht. simpl. apply elem_of_union_r. by apply H1.
    - rewrite visit_fdes_flat. apply foldl_invariant.
      + intros [st1 fd1] rel _ H1. unfold visit_eh_reloc; simpl.
        destruct (input_section (eh_sym rel)) as [p|]; [|done].
        destruct (mark_section_spec (Some p) st1)
          as [(? & [= <-] & _ & _ & ->)|[_ ->]]; [|done].
        by apply Hadd.
      + intros t Ht. simpl in *.
        destruct (visit_rel_fragments_mext s st) as (_ & Hv & _).
        by apply Hv, Hw. }
  induction n as [|n IH]; intros isec w; rewrite visit_levels_eq.
  - apply Hbody. intros t [st fd] Ht Hw x. simpl.
    intros [?| ->%list_elem_of_singleton]%elem_of_app; [by apply Hw|done].
  - apply Hbody. intros t w' _. apply IH.
Qed.

Lemma mark_loop_checked_eq ctx bound fuel : ∀ queue st,
  (∀ q, q ∈ queue → q ∈ is_visited st) →
  mark_loop_checked ctx bound fuel queue st
  = mark_loop ctx bound fuel queue st.
Proof.
  induction fuel as [|fuel IH]; intros [|isec rest] st Hq; simpl; try done.
  unfold visit_bound.
  rewrite visit_levels_checked_some by (apply Hq; by left).
  pose proof (visit_levels_wext ctx (Z.to_nat (bound - 0)) isec (st, []))
    as [(_ & Hv & _) _].
  pose proof (visit_levels_feeder_visited ctx (Z.to_nat (bound - 0)) isec
                (st, [])) as Hfd.
  destruct (visit_levels ctx (Z.to_nat (bound - 0)) isec (st, []))
    as [st' added]. simpl in *.
  apply IH. intros q [Hin|Hin]%elem_of_app.
  - apply Hv, Hq. by right.
  - apply Hfd; [|done]. by intros ? ?%elem_of_nil.
Qed.

(** X10. The assertion of line 31 never fails: with the assertion kept in
    [visit], the collector returns what it returns without, for every
    input. *)
Theorem X10_assertion_holds (ctx : Context) (st : State) :
  ∃ st', gc_sections_checked ctx st = Some st' ∧
         gc_sections ctx st = Some st'.
Proof.
  destruct (gc_sections_bound_spec 3 ctx st) as (st' & Hgc & _).
  exists st'. split; [|done]. revert Hgc.
  unfold gc_sections_checked, gc_sections_bound, mark_bound.
  destruct (collect_root_set_spec ctx (mark_nonalloc_fragments ctx st))
    as (_ & _ & _ & _ & Hv & _).
  destruct (collect_root_set ctx (mark_nonalloc_fragments ctx st))
    as [st1 roots]. simpl in *.
  rewrite mark_loop_checked_eq; [done|].
  intros q Hq. apply Hv. by right.
Qed.

(** X11. What the marker leaves behind depends on the set of the roots only:
    their order and repetitions in the work list have no effect on the
    sections visited and the fragments alive. *)
Theorem X11_mark_root_order (bound : Z) (ctx : Context)
    (roots roots' : list isec_ptr) (st : State) :
  (∀ r, r ∈ roots ↔ r ∈ roots') →
  ∃ st1 st2,
    mark_bound bound ctx roots st = Some st1 ∧
    mark_bound bound ctx roots' st = Some st2 ∧
    is_visited st1 = is_visited st2 ∧
    frag_is_alive st1 = frag_is_alive st2 ∧
    is_alive st1 = is_alive st2.
Proof.
  intros H.
  destruct (mark_bound_spec ctx st roots bound) as (st1 & ? & Hx1 & Hv1 & Hf1).
  destruct (mark_bound_spec ctx st roots' bound)
    as (st2 & ? & Hx2 & Hv2 & Hf2).
  exists st1, st2. do 2 (split; [done|]).
  assert (∀ p, marked ctx st roots p ↔ marked ctx st roots' p) as Hm.
  { intros p. apply reachable_roots_iff. intros r.
    rewrite !list_elem_of_bind. split; intros (q & ? & ?%H); eauto. }
  split; [|split].
  - apply set_eq. intros p. by rewrite Hv1, Hv2, Hm.
  - apply set_eq. intros f. rewrite Hf1, Hf2. unfold toured.
    apply or_iff_both; [done|].
    split; intros (a & [?%H|?%Hm] & ?); exists a; auto.
  - destruct Hx1 as (-> & _), Hx2 as (-> & _). done.
Qed.

Lemma X11_mark_root_order_witness :
  (∀ r, r ∈ [0%nat; 1%nat] ↔ r ∈ [1%nat; 0%nat; 0%nat]) ∧
  ∃ st1 st2,
    mark_bound 3 Scenario.ctx_demo [0%nat; 1%nat]
      (Scenario.state0 {[0%nat; 1%nat; 2%nat]}) = Some st1 ∧
    mark_bound 3 Scenario.ctx_demo [1%nat; 0%nat; 0%nat]
      (Scenario.state0 {[0%nat; 1%nat; 2%nat]}) = Some st2 ∧
    is_visited st1 = is_visited st2 ∧
    frag_is_alive st1 = frag_is_alive st2 ∧
    is_alive st1 = is_alive st2.
Proof.
  assert (∀ r, r ∈ [0%nat; 1%nat] ↔ r ∈ [1%nat; 0%nat; 0%nat]) as H.
  { intros r. rewrite !elem_of_cons, elem_of_nil. tauto. }
  split; [exact H|].
  exact (X11_mark_root_order 3 Scenario.ctx_demo _ _ _ H).
Defined.

#[local] Arguments sweep_section : simpl nomatch.

Lemma sweep_forget_accepted ctx st :
  forget_accepted (sweep ctx st) = sweep ctx (forget_accepted st).
Proof.
  rewrite !sweep_flat. revert st.
  induction (listed_slots ctx) as [|slot l IH]; intros st; simpl; [done|].
  rewrite IH. f_equal. destruct slot as [p|]; [|done].
  unfold sweep_section; simpl.
  destruct (bool_decide (p ∈ is_alive st)
            && negb (bool_decide (p ∈ is_visited st))); [|done].
  by destruct (print_gc_sections (arg ctx)).
Qed.

(** X12. The depth bound of [visit] has no effect on what the collector
    returns, whatever the two bounds: the flags of the sections and of the
    fragments, the counter and the output are the same. *)
Theorem X12_gc_sections_depth_bound (b1 b2 : Z) (ctx : Context)
    (st : State) :
  ∃ st1 st2,
    gc_sections_bound b1 ctx st = Some st1 ∧
    gc_sections_bound b2 ctx st = Some st2 ∧
    is_alive st1 = is_alive st2 ∧
    is_visited st1 = is_visited st2 ∧
    frag_is_alive st1 = frag_is_alive st2 ∧
    counter st1 = counter st2 ∧
    sync_out st1 = sync_out st2.
Proof.
  destruct (gc_sections_bound_marked b1 ctx st)
    as (s1 & -> & Hx1 & Hv1 & _ & Hf1).
  destruct (gc_sections_bound_marked b2 ctx st)
    as (s2 & -> & Hx2 & Hv2 & _ & Hf2).
  exists (sweep ctx s1), (sweep ctx s2). do 2 (split; [done|]).
  assert (forget_accepted (sweep ctx s1) = forget_accepted (sweep ctx s2))
    as Heq.
  { rewrite !sweep_forget_accepted. f_equal.
    destruct Hx1 as (? & _ & _ & ? & ? & _), Hx2 as (? & _ & _ & ? & ? & _).
    apply state_eq; simpl; try congruence.
    - apply set_eq. intros p. by rewrite Hv1, Hv2.
    - apply set_eq. intros f. by rewrite Hf1, Hf2. }
  split; [exact (f_equal is_alive Heq)|].
  split; [exact (f_equal is_visited Heq)|].
  split; [exact (f_equal frag_is_alive Heq)|].
  split; [exact (f_equal counter Heq)|exact (f_equal sync_out Heq)].
Qed.

Lemma mark_loop_more_fuel ctx bound fuel : ∀ fuel' queue st st',
  mark_loop ctx bound fuel queue st = Some st' → (fuel ≤ fuel')%nat →
  mark_loop ctx bound fuel' queue st = Some st'.
Proof.
  induction fuel as [|fuel IH]; intros fuel' [|isec rest] st st' H Hle;
    simpl in *; try done.
  - by destruct fuel'.
  - by destruct fuel'.
  - destruct fuel' as [|fuel']; [lia|]. simpl.
    destruct (visit_bound bound ctx isec (st, []) 0) as [st1 added].
    apply IH; [done|lia].
Qed.

(** X13. The work list of the marker drains: [mark_loop] returns after at
    most as many visits as there are roots and sections alive and not
    visited, and more fuel does not change what it returns. *)
Theorem X13_mark_terminates (bound : Z) (ctx : Context)
    (roots : list isec_ptr) (st : State) (fuel : nat) :
  (length roots + size (is_alive st ∖ is_visited st) ≤ fuel)%nat →
  ∃ st', mark_loop ctx bound fuel roots st = Some st' ∧
         mark_bound bound ctx roots st = Some st'.
Proof.
  intros Hle. destruct (mark_bound_returns bound ctx roots st) as (st' & H & _).
  exists st'. split; [|done].
  by apply (mark_loop_more_fuel ctx bound (mark_fuel roots st)).
Qed.

Lemma X13_mark_terminates_witness :
  (length [0%nat]
   + size (is_alive (Scenario.state0 {[0%nat; 1%nat; 2%nat]})
           ∖ is_visited (Scenario.state0 {[0%nat; 1%nat; 2%nat]})) ≤ 7)%nat ∧
  ∃ st', mark_loop Scenario.ctx_demo 3 7 [0%nat]
           (Scenario.state0 {[0%nat; 1%nat; 2%nat]}) = Some st' ∧
         mark_bound 3 Scenario.ctx_demo [0%nat]
           (Scenario.state0 {[0%nat; 1%nat; 2%nat]}) = Some st'.
Proof.
  assert (length [0%nat]
          + size (is_alive (Scenario.state0 {[0%nat; 1%nat; 2%nat]})
                  ∖ is_visited (Scenario.state0 {[0%nat; 1%nat; 2%nat]}))
          ≤ 7)%nat as H by (vm_compute; lia).
  split; [exact H|].
  exact (X13_mark_terminates 3 Scenario.ctx_demo [0%nat] _ 7%nat H).
Defined.

#[local] Instance vext_preorder : PreOrder vext.
Proof.
  split.
  - intros st. exists []. rewrite app_nil_r. split; [done|].
    split; [|split; [done|by intros p ?%elem_of_nil]].
    apply set_eq. intros p. rewrite elem_of_union, elem_of_list_to_set,
      elem_of_nil. tauto.
  - intros st1 st2 st3 (l1 & Ha1 & Hv1 & Hal1 & Hl1)
      (l2 & Ha2 & Hv2 & Hal2 & Hl2).
    exists (l1 ++ l2). rewrite Ha2, Ha1, app_assoc. split; [done|].
    split; [|split; [congruence|]].
    + rewrite Hv2, Hv1. apply set_eq. intros p.
      rewrite !elem_of_union, !elem_of_list_to_set, elem_of_app. tauto.
    + intros p [?|?]%elem_of_app; [by auto|]. rewrite <- Hal1. by auto.
Qed.

#[local] Instance wvext_preorder : PreOrder wvext.
Proof.
  split.
  - intros w. unfold wvext. done.
  - intros w1 w2 w3 ? ?. unfold wvext in *. by etrans.
Qed.

Lemma vext_frag_set_alive f st : vext st (frag_set_alive f st).
Proof.
  exists []. simpl. rewrite app_nil_r. split; [done|].
  split; [|split; [done|by intros p ?%elem_of_nil]].
  apply set_eq. intros p. rewrite elem_of_union, elem_of_empty. tauto.
Qed.

Lemma vext_mark_section isec st : vext st (mark_section isec st).2.
Proof.
  destruct (mark_section_spec isec st) as [(p & -> & ? & ? & ->)|[_ ->]];
    simpl; [|done].
  exists [p]. split; [done|]. simpl.
  split; [|split; [done|by intros q ->%list_elem_of_singleton]].
  apply set_eq. intros q.
  rewrite !elem_of_union, elem_of_empty, elem_of_singleton. tauto.
Qed.

Lemma visit_levels_wvext ctx n : ∀ isec w,
  wvext w (visit_levels ctx n isec w).
Proof.
  assert (∀ d, (∀ t w, wvext w (d t w)) → ∀ isec w,
    wvext w match get_isec ctx isec with
            | None => w
            | Some s =>
                foldl (visit_rel ctx d s)
                  (visit_fdes s (visit_rel_fragments s w.1, w.2)) (rels s)
            end) as Hbody.
  { intros d Hd isec [st fd]. destruct (get_isec ctx isec) as [s|]; [|done].
    transitivity (visit_rel_fragments s st, fd);
      [|transitivity (visit_fdes s (visit_rel_fragments s st, fd))].
    - unfold wvext; simpl.
      apply (foldl_preorder vext). intros; apply vext_frag_set_alive.
    - rewrite visit_fdes_flat. apply (foldl_preorder wvext).
      intros [st1 fd1] rel _. unfold visit_eh_reloc, wvext; simpl.
      destruct (input_section (eh_sym rel)) as [p|]; [|done].
      pose proof (vext_mark_section (Some p) st1) as Hm.
      by destruct (mark_section (Some p) st1) as [[] st2].
    - apply (foldl_preorder wvext).
      intros [st1 fd1] rel _. unfold visit_rel; simpl.
      destruct (get_symbol ctx s (r_sym rel)) as [sym|]; [|done].
      destruct (sym_frag sym); [apply vext_frag_set_alive|].
      pose proof (vext_mark_section (input_section sym) st1) as Hm.
      destruct (mark_section (input_section sym) st1) as [[] st2];
        simpl in *; [|done].
      destruct (input_section sym) as [t|]; [|done].
      etrans; [|apply Hd]. done. }
  induction n as [|n IH]; intros isec w; rewrite visit_levels_eq.
  - apply Hbody. intros t [st fd]. unfold wvext; simpl. reflexivity.
  - by apply Hbody.
Qed.

Lemma mark_loop_vext ctx bound fuel : ∀ queue st st',
  mark_loop ctx bound fuel queue st = Some st' → vext st st'.
Proof.
  induction fuel as [|fuel IH]; intros [|isec rest] st st' H; simpl in H;
    try (by injection H as <-); try done.
  unfold visit_bound in H.
  pose proof (visit_levels_wvext ctx (Z.to_nat (bound - 0)) isec (st, []))
    as Hv.
  destruct (visit_levels ctx (Z.to_nat (bound - 0)) isec (st, []))
    as [st1 added]. unfold wvext in Hv; simpl in Hv.
  etrans; [done|]. by eapply IH.
Qed.

(** X14. Each section is accepted exactly once, if it is to be visited at
    all: the sections [mark_section] returns true for in a run of the
    collector are, each once, the eligible sections that the root candidates
    reach through eligible sections.  So no section dead on entry, and no
    section of a file that lacks ALLOC, is ever accepted. *)
Theorem X14_accepted_exactly_reachable (ctx : Context) (st : State) :
  ∃ st' l,
    gc_sections ctx st = Some st' ∧
    accepted st' = accepted st ++ l ∧
    NoDup l ∧
    ∀ p, p ∈ l ↔ reachable ctx (eligible ctx st) (root_candidates ctx) p.
Proof.
  unfold gc_sections, gc_sections_bound.
  destruct (mark_nonalloc_fragments_spec ctx st)
    as (Ha0 & Hv0 & _ & _ & Hacc0 & _).
  set (st0 := mark_nonalloc_fragments ctx st) in *.
  assert (∀ p, reachable ctx (eligible ctx st0) (root_candidates ctx) p ↔
               reachable ctx (eligible ctx st) (root_candidates ctx) p)
    as Hre.
  { intros p. apply reachable_ok_iff. intros q.
    unfold eligible, exempt. by rewrite Ha0, Hv0. }
  pose proof (toured_reachable ctx st0) as Htour.
  destruct (collect_root_set_spec ctx st0)
    as (_ & Hacc1 & Hnd1 & _ & Hv1 & _).
  destruct (collect_root_set ctx st0) as [st1 roots]. simpl in *.
  destruct (mark_bound_spec ctx st1 roots 3) as (st2 & Hm & Hx2 & Hv2 & _).
  rewrite Hm.
  destruct (mark_loop_vext _ _ _ _ _ _ Hm) as (l2 & Hacc2 & Hvl2 & _).
  destruct (mext_accepted_new _ _ _ Hx2 Hacc2) as [Hnd2 Hnew2].
  exists (sweep ctx st2), (roots ++ l2). split; [done|].
  destruct (sweep_spec ctx st2) as (killed & _ & _ & ->). simpl.
  split; [by rewrite Hacc2, Hacc1, Hacc0, app_assoc|].
  split.
  - apply NoDup_app. split; [done|]. split; [|done].
    intros p Hp Hp'. apply (Hnew2 p Hp'), Hv1. by right.
  - intros p. rewrite <- Hre, <- Htour, elem_of_app. unfold toured.
    apply or_iff_both; [done|]. split.
    + intros Hp. destruct (Hnew2 p Hp) as [Hn Hin].
      apply Hv2 in Hin as [?|?]; done.
    + intros Hp. pose proof (reachable_ok _ _ _ _ Hp) as [_ Hn].
      assert (p ∈ is_visited st2) as Hin by (apply Hv2; by right).
      rewrite Hvl2, elem_of_union, elem_of_list_to_set in Hin.
      destruct Hin; done.
Qed.

(** X15. A visit changes no [is_alive] of a section, counts nothing and
    prints nothing; it clears no [is_visited] and sets no fragment dead; and
    the sections it makes visited are those [mark_section] accepted during
    it, each once. *)
Theorem X15_visit_frame (ctx : Context) (isec : isec_ptr) (w : Work)
    (depth : Z) :
  is_alive (visit ctx isec w depth).1 = is_alive w.1 ∧
  counter (visit ctx isec w depth).1 = counter w.1 ∧
  sync_out (visit ctx isec w depth).1 = sync_out w.1 ∧
  frag_is_alive w.1 ⊆ frag_is_alive (visit ctx isec w depth).1 ∧
  ∃ l, accepted (visit ctx isec w depth).1 = accepted w.1 ++ l ∧
       NoDup l ∧
       (∀ p, p ∈ l → p ∈ is_alive w.1 ∧ p ∉ is_visited w.1) ∧
       is_visited (visit ctx isec w depth).1
       = is_visited w.1 ∪ list_to_set l.
Proof.
  unfold visit, visit_bound.
  destruct (visit_levels_wext ctx (Z.to_nat (3 - depth)) isec w)
    as [Hx _].
  destruct (visit_levels_wvext ctx (Z.to_nat (3 - depth)) isec w)
    as (l & Hacc & Hv & _ & Hl).
  destruct (mext_accepted_new _ _ _ Hx Hacc) as [Hnd Hnew].
  destruct Hx as (Ha & _ & Hf & Hc & Ho & _).
  do 4 (split; [done|]). exists l. do 2 (split; [done|]). split; [|done].
  intros p Hp. split; [by apply Hl|by apply (Hnew p Hp)].
Qed.

(** X16. After the root collector a section is visited iff it was visited
    before, or is a section of a file that lacks ALLOC, or is in the vector
    of roots; the root collector changes no [is_alive] of a section, counts
    nothing and prints nothing. *)
Theorem X16_collect_root_set_effect (ctx : Context) (st : State) :
  (∀ p, p ∈ is_visited (collect_root_set ctx st).1 ↔
        p ∈ is_visited st ∨
        (listed ctx p ∧
         ∃ s, get_isec ctx p = Some s ∧
              Z.land (sh_flags (shdr s)) SHF_ALLOC = 0) ∨
        p ∈ (collect_root_set ctx st).2) ∧
  is_alive (collect_root_set ctx st).1 = is_alive st ∧
  counter (collect_root_set ctx st).1 = counter st ∧
  sync_out (collect_root_set ctx st).1 = sync_out st.
Proof.
  destruct (collect_root_set_spec ctx st)
    as ((Ha & _ & _ & Hc & Ho & _) & _ & _ & _ & Hv & _).
  split; [|done]. intros p. rewrite Hv. unfold exempt, nonalloc, lacks_alloc.
  assert ((∃ s, get_isec ctx p = Some s ∧
                (Z.land (sh_flags (shdr s)) SHF_ALLOC =? 0) = true) ↔
          (∃ s, get_isec ctx p = Some s ∧
                Z.land (sh_flags (shdr s)) SHF_ALLOC = 0)) as ->; [|tauto].
  split; intros (s & ? & ?%Z.eqb_eq); eauto.
Qed.

(** X17. A second root collection finds no root and changes nothing: run on
    the state the root collector returned, the root collector returns that
    state and an empty vector. *)
Theorem X17_collect_root_set_twice (ctx : Context) (st : State) :
  collect_root_set ctx (collect_root_set ctx st).1
  = ((collect_root_set ctx st).1, []).
Proof.
  destruct (collect_root_set_spec ctx st)
    as ((Ha & _) & _ & _ & _ & Hv & Hcand & Hf).
  set (st1 := (collect_root_set ctx st).1) in *.
  destruct (collect_root_set_spec ctx st1)
    as (Hx & Hacc & _ & Hroots & Hv' & _ & Hf').
  destruct (collect_root_set ctx st1) as [st2 roots2]. simpl in *.
  destruct roots2 as [|r roots2].
  2: { destruct (Hroots r) as (Hc & Hal & Hne); [by left|].
       exfalso. apply Hne. left. apply Hcand; [done|]. by rewrite <- Ha. }
  f_equal. destruct Hx as (? & _ & _ & ? & ? & _).
  apply state_eq; try done.
  - apply set_eq. intros p. rewrite Hv', elem_of_nil. unfold exempt.
    split; [|by auto]. intros [[?|?]|[]]; [done|].
    apply Hv. left. by right.
  - apply set_eq. intros f. rewrite Hf'. split; [|by auto].
    intros [?|?]; [done|]. apply Hf. by right.
  - by rewrite Hacc, app_nil_r.
Qed.
